(** * rename_project.py: bulk literal renaming over a source tree

    A shallow embedding of [src/rename_project.py] and the properties of
    its replacement loop, of its read-modify-write step and of its run
    loop with the two counters.

    Modelling decisions.
    - Text is [string]: one character of the model per character of the
      Python [str] (the replacement table is ASCII). Files hold decoded
      text, as [f.read()] returns it and [f.write()] takes it; a file
      whose bytes are not valid UTF-8 holds no text ([text = None]).
    - A [dict] is the list of its items in insertion order (the order
      [dict.items()] iterates in).
    - The file system is a finite map from path strings to nodes.
      [glob.glob] is a library call on the real directory tree: its
      result for each pattern is an input of the model.
    - Everything the program does to the outside (opening a file,
      printing a line) is appended to a log, in program order. *)

From Stdlib Require Import Ascii String Lia.
From stdpp Require Import gmap strings list.

(** ** Python's [str] methods used by the script *)

Module Str.

(** [s.startswith(pre)] *)
Fixpoint startswith (s pre : string) : bool :=
  match pre with
  | "" => true
  | String a pre' =>
      match s with
      | "" => false
      | String b s' => Ascii.eqb a b && startswith s' pre'
      end
  end.

(** [sub in s] *)
Fixpoint contains (s sub : string) : bool :=
  startswith s sub ||
  match s with
  | "" => false
  | String _ s' => contains s' sub
  end.

(** [s.replace("", new)]: [new] goes before every character and at the
    end. *)
Fixpoint interleave (s new : string) : string :=
  match s with
  | "" => new
  | String c s' => new +:+ String c (interleave s' new)
  end.

(** [s.replace(old, new)] for a non-empty [old]: one scan from the
    left; where [old] matches at the cursor, [new] is emitted and the
    cursor jumps over the match ([skip] is the number of characters of
    the match still to jump over), elsewhere the character is copied. *)
Fixpoint replace_scan (s old new : string) (skip : nat) : string :=
  match s with
  | "" => ""
  | String c s' =>
      match skip with
      | S k => replace_scan s' old new k
      | O =>
          if startswith s old
          then new +:+ replace_scan s' old new (String.length old - 1)
          else String c (replace_scan s' old new 0)
      end
  end.

(** [s.replace(old, new)] *)
Definition replace (s old new : string) : string :=
  match old with
  | "" => interleave s new
  | _ => replace_scan s old new 0
  end.

(** [s.split(sep)] for a one-character separator. *)
Fixpoint split (s : string) (sep : ascii) : list string :=
  match s with
  | "" => [""]
  | String c s' =>
      if Ascii.eqb c sep then "" :: split s' sep
      else match split s' sep with
           | seg :: segs => String c seg :: segs
           | [] => [String c ""]
           end
  end.

(** [s[n:]] *)
Fixpoint drop (n : nat) (s : string) : string :=
  match n, s with
  | S k, String _ s' => drop k s'
  | _, _ => s
  end.

(** [sub] occurs in [s]. *)
Definition occurs (sub s : string) : Prop :=
  ∃ u v, s = u +:+ sub +:+ v.

End Str.

(** ** The outside world: files and standard output *)

(** The exceptions [open], [read] and [write] raise. *)
Inductive error :=
| FileNotFoundError
| IsADirectoryError
| PermissionError
| UnicodeDecodeError.

(** A regular file: its permissions for this process and its content
    decoded as UTF-8 ([None] when the bytes do not decode). *)
Record file := { can_read : bool; can_write : bool; text : option string }.

Inductive node :=
| Dir
| File (f : file).

(** The lines the script prints. *)
Inductive line :=
| Starting
| Updated (file_path : string)
| ErrorUpdating (file_path : string) (e : error)
| Completed
| Summary (updated_files total_files : nat)
| Renamed.

Inductive event :=
| OpenRead (file_path : string)
| OpenWrite (file_path : string)
| Print (l : line).

Record world := { fs : gmap string node; log : list event }.

(** State passing for code that cannot fail, and on top of it code that
    returns a value or raises. *)
Definition IO (A : Type) : Type := world → A * world.

Inductive result (A : Type) :=
| Ok (a : A)
| Raise (e : error).
Arguments Ok {A} a.
Arguments Raise {A} e.

Definition M (A : Type) : Type := IO (result A).

#[global] Instance IO_ret : MRet IO := λ A a w, (a, w).
#[global] Instance IO_bind : MBind IO := λ A B k m w,
  let '(a, w') := m w in k a w'.
#[global] Instance M_ret : MRet M := λ A a w, (Ok a, w).
#[global] Instance M_bind : MBind M := λ A B k m w,
  match m w with
  | (Ok a, w') => k a w'
  | (Raise e, w') => (Raise e, w')
  end.

Definition lift {A} (m : IO A) : M A := λ w, let '(a, w') := m w in (Ok a, w').

(** [try: body  except Exception as e: handler e] *)
Definition try_except {A} (body : M A) (handler : error → IO A) : IO A := λ w,
  match body w with
  | (Ok a, w') => (a, w')
  | (Raise e, w') => handler e w'
  end.

Definition emit (e : event) : IO unit := λ w,
  (tt, {| fs := fs w; log := log w ++ [e] |}).

Definition print (l : line) : IO unit := emit (Print l).

(** [with open(file_path, 'r', encoding='utf-8') as f: f.read()] *)
Definition read_text (file_path : string) : M string := λ w,
  let w' := {| fs := fs w; log := log w ++ [OpenRead file_path] |} in
  match fs w !! file_path with
  | None => (Raise FileNotFoundError, w')
  | Some Dir => (Raise IsADirectoryError, w')
  | Some (File f) =>
      if can_read f then
        match text f with
        | Some content => (Ok content, w')
        | None => (Raise UnicodeDecodeError, w')
        end
      else (Raise PermissionError, w')
  end.

(** [with open(file_path, 'w', encoding='utf-8') as f: f.write(content)];
    mode ['w'] creates a missing file. *)
Definition write_text (file_path content : string) : M unit := λ w,
  let l' := log w ++ [OpenWrite file_path] in
  match fs w !! file_path with
  | None =>
      let f := {| can_read := true; can_write := true; text := Some content |} in
      (Ok tt, {| fs := <[file_path := File f]> (fs w); log := l' |})
  | Some Dir => (Raise IsADirectoryError, {| fs := fs w; log := l' |})
  | Some (File f) =>
      if can_write f then
        let f' := {| can_read := can_read f; can_write := can_write f; text := Some content |} in
        (Ok tt, {| fs := <[file_path := File f']> (fs w); log := l' |})
      else (Raise PermissionError, {| fs := fs w; log := l' |})
  end.

(** ** [update_file_content] *)

(** Lines 21-22: the loop over [replacements.items()]. *)
Fixpoint apply_replacements (replacements : list (string * string)) (content : string) : string :=
  match replacements with
  | [] => content
  | (old_text, new_text) :: rest =>
      apply_replacements rest (Str.replace content old_text new_text)
  end.

Definition update_file_content (file_path : string) (replacements : list (string * string)) : IO bool :=
  try_except
    (content ← read_text file_path;
     let original_content := content in
     let content := apply_replacements replacements content in
     if negb (String.eqb content original_content) then
       write_text file_path content;;
       lift (print (Updated file_path));;
       mret true
     else mret false)
    (λ e, print (ErrorUpdating file_path e);; mret false).

(** ** [main] *)

(** Lines 39-72, in insertion order. *)
Definition replacements : list (string * string) :=
  [ ("SPDX-FileCopyrightText: 2024 A3Mailer Project", "SPDX-FileCopyrightText: 2024 A3Mailer Project");
    ("A3Mailer DAV Server", "A3Mailer DAV Server");
    ("A3Mailer Mail Server", "A3Mailer Mail Server");
    ("A3Mailer SMTP Server", "A3Mailer SMTP Server");
    ("A3Mailer IMAP Server", "A3Mailer IMAP Server");
    ("A3Mailer HTTP Server", "A3Mailer HTTP Server");
    ("A3Mailer Server", "A3Mailer Server");
    ("A3Mailer High-Performance Server", "A3Mailer High-Performance Server");
    ("A3Mailer implementation", "A3Mailer implementation");
    ("A3Mailer protocol", "A3Mailer protocol");
    ("A3Mailer backend", "A3Mailer backend");
    ("A3Mailer frontend", "A3Mailer frontend");
    ("A3Mailer codebase", "A3Mailer codebase");
    ("A3Mailer project", "A3Mailer project");
    ("A3Mailer Team", "A3Mailer Team");
    ("a3mailer-server", "a3mailer-server");
    ("a3mailer-main", "a3mailer-main");
    ("urn:a3mailer:", "urn:a3mailer:");
    ("A3Mailer configuration", "A3Mailer configuration");
    ("A3Mailer setup", "A3Mailer setup");
    ("A3Mailer deployment", "A3Mailer deployment") ].

(** Lines 75-85. *)
Definition file_patterns : list string :=
  [ "**/*.rs"; "**/*.toml"; "**/*.md"; "**/*.yml"; "**/*.yaml";
    "**/*.json"; "**/*.txt"; "**/*.sh"; "**/*.py" ].

(** [Path(file_path).parts] on a POSIX system: the root, when the path
    has one, then the components between slashes, without the empty
    ones and without ["."]. *)
Definition parts (file_path : string) : list string :=
  let names :=
    filter (λ x, x ≠ "" ∧ x ≠ ".") (Str.split file_path "/") in
  match file_path with
  | String "/" (String "/" (String "/" _)) => "/" :: names
  | String "/" (String "/" _) => "//" :: names
  | String "/" _ => "/" :: names
  | _ => names
  end.

(** Line 94. *)
Definition is_hidden (file_path : string) : bool :=
  existsb (λ part, Str.startswith part ".") (parts file_path).

Definition skip_list : list string :=
  [ "target/"; "node_modules/"; ".git/"; "__pycache__/" ].

(** Line 98. *)
Definition is_build_artifact (file_path : string) : bool :=
  existsb (λ skip, Str.contains file_path skip) skip_list.

(** The two counters of [main]. *)
Record counters := { updated_files : nat; total_files : nat }.

(** Lines 93-103: the body of the inner loop. *)
Definition visit (replacements : list (string * string)) (file_path : string) (c : counters) : IO counters :=
  if is_hidden file_path then mret c
  else if is_build_artifact file_path then mret c
  else
    let c := {| updated_files := updated_files c; total_files := total_files c + 1 |} in
    changed ← update_file_content file_path replacements;
    if changed : bool
    then mret {| updated_files := updated_files c + 1; total_files := total_files c |}
    else mret c.

(** [for x in xs: body], threading the local variables [s]. *)
Fixpoint for_each {A S} (xs : list A) (body : A → S → IO S) (s : S) : IO S :=
  match xs with
  | [] => mret s
  | x :: xs' => s' ← body x s; for_each xs' body s'
  end.

(** [main] with its two tables as parameters. [glob pattern] is the
    result of [glob.glob(pattern, recursive=True)]. The counters are
    returned next to being printed. *)
Definition main_with (replacements : list (string * string)) (file_patterns : list string)
    (glob : string → list string) : IO counters :=
  print Starting;;
  c ← for_each file_patterns
        (λ pattern c, for_each (glob pattern) (visit replacements) c)
        {| updated_files := 0; total_files := 0 |};
  print Completed;;
  print (Summary (updated_files c) (total_files c));;
  print Renamed;;
  mret c.

Definition main (glob : string → list string) : IO counters :=
  main_with replacements file_patterns glob.

(** The world the script starts in: a file system and nothing logged. *)
Definition boot (files : gmap string node) : world := {| fs := files; log := [] |}.

(** ** [main] statement by statement

    The same loop as a machine that stops between statements, for the
    properties that speak of every point of the execution. *)

Inductive pc :=
| AtStart                                                   (* line 36 *)
| AtPattern (patterns : list string)                        (* line 91 *)
| AtFile (paths : list string) (patterns : list string)     (* line 92 *)
| AtCall (file_path : string) (paths : list string) (patterns : list string)  (* line 102 *)
| AtSummary                                                 (* line 105 *)
| AtExit.

Record config := { at_pc : pc; vars : counters; env : world }.

Definition start (files : gmap string node) : config :=
  {| at_pc := AtStart; vars := {| updated_files := 0; total_files := 0 |}; env := boot files |}.

Definition step (replacements : list (string * string)) (file_patterns : list string)
    (glob : string → list string) (k : config) : option config :=
  let c := vars k in
  let w := env k in
  match at_pc k with
  | AtStart =>
      Some {| at_pc := AtPattern file_patterns; vars := c; env := (print Starting w).2 |}
  | AtPattern [] => Some {| at_pc := AtSummary; vars := c; env := w |}
  | AtPattern (pattern :: patterns) =>
      Some {| at_pc := AtFile (glob pattern) patterns; vars := c; env := w |}
  | AtFile [] patterns => Some {| at_pc := AtPattern patterns; vars := c; env := w |}
  | AtFile (file_path :: paths) patterns =>
      if is_hidden file_path then Some {| at_pc := AtFile paths patterns; vars := c; env := w |}
      else if is_build_artifact file_path then Some {| at_pc := AtFile paths patterns; vars := c; env := w |}
      else Some {| at_pc := AtCall file_path paths patterns;
                   vars := {| updated_files := updated_files c; total_files := total_files c + 1 |};
                   env := w |}
  | AtCall file_path paths patterns =>
      let '(changed, w') := update_file_content file_path replacements w in
      Some {| at_pc := AtFile paths patterns;
              vars := if changed : bool
                      then {| updated_files := updated_files c + 1; total_files := total_files c |}
                      else c;
              env := w' |}
  | AtSummary =>
      Some {| at_pc := AtExit; vars := c;
              env := ((print Completed;;
                       print (Summary (updated_files c) (total_files c));;
                       print Renamed) w).2 |}
  | AtExit => None
  end.

(** The configuration after [n] steps (the last one when the machine has
    stopped before). *)
Fixpoint exec (replacements : list (string * string)) (file_patterns : list string)
    (glob : string → list string) (n : nat) (k : config) : config :=
  match n with
  | O => k
  | S n' =>
      match step replacements file_patterns glob k with
      | Some k' => exec replacements file_patterns glob n' k'
      | None => k
      end
  end.

(** ** The vocabulary of the specification *)




(** A table of identity pairs. *)
Definition identity_table (table : list (string * string)) : Prop :=
  Forall (λ entry, entry.1 = entry.2) table.

(** No key of the table occurs in [content]. *)
Definition key_free (table : list (string * string)) (content : string) : Prop :=
  ∀ old new, (old, new) ∈ table → ¬ Str.occurs old content.

(** The caveat of the specification: no new-string contains a key. *)
Definition no_key_in_new (table : list (string * string)) : Prop :=
  ∀ old new key new', (old, new) ∈ table → (key, new') ∈ table → ¬ Str.occurs key new.

(** [key] and [new] never overlap: in every text in which both occur,
    the occurrence of [new] ends before the occurrence of [key] begins
    or begins after it has ended. In particular [key] does not occur in
    [new], does not contain it, and no end of one is a beginning of the
    other. *)
Definition apart (key new : string) : Prop :=
  ∀ x y z w, x +:+ key +:+ y = z +:+ new +:+ w →
    String.length z + String.length new ≤ String.length x ∨
    String.length x + String.length key ≤ String.length z.

(** A stronger caveat: keys are non-empty and no key overlaps a
    new-string. *)
Definition no_overlap (table : list (string * string)) : Prop :=
  (∀ old new, (old, new) ∈ table → old ≠ "") ∧
  (∀ old new key new', (old, new) ∈ table → (key, new') ∈ table → apart key new).




(** The paths [main] passes to its loop body, in order. *)
Definition discovered (file_patterns : list string) (glob : string → list string) : list string :=
  concat (map glob file_patterns).

(** A discovered path that the two tests of the loop body let through. *)
Definition candidate (file_path : string) : bool :=
  negb (is_hidden file_path) && negb (is_build_artifact file_path).

(** The number of [Updated] lines in a log. *)
Fixpoint updated_lines (l : list event) : nat :=
  match l with
  | [] => 0
  | Print (Updated _) :: l' => S (updated_lines l')
  | _ :: l' => updated_lines l'
  end.


(** The path an event is about. *)
Definition event_path (e : event) : option string :=
  match e with
  | OpenRead file_path | OpenWrite file_path
  | Print (Updated file_path) | Print (ErrorUpdating file_path _) => Some file_path
  | Print _ => None
  end.

(** The property "a file that contains a key is rewritten free of keys
    and counted as updated", for the tables that satisfy [caveat]. The
    file is an ordinary one (readable, writable) that the run visits. *)
Definition keys_removed_and_counted (caveat : list (string * string) → Prop) : Prop :=
  ∀ table patterns glob files file_path f content,
    caveat table →
    files !! file_path = Some (File f) → can_read f = true → can_write f = true →
    text f = Some content →
    candidate file_path = true → file_path ∈ discovered patterns glob →
    (∃ old new, (old, new) ∈ table ∧ Str.occurs old content) →
    let r := main_with table patterns glob (boot files) in
    ∃ content',
      fs r.2 !! file_path =
        Some (File {| can_read := true; can_write := true; text := Some content' |}) ∧
      key_free table content' ∧
      Print (Updated file_path) ∈ log r.2 ∧
      updated_files r.1 = updated_lines (log r.2).

(** ** The run seen from one path *)

(** What a call does to the node at its path: a regular file that can be
    read, decoded and written gets the fold of the replacements over its
    text; every other node is left as it is. *)
Definition rewrite_node (table : list (string * string)) (nd : node) : node :=
  match nd with
  | Dir => Dir
  | File f =>
      match text f with
      | Some content =>
          if can_read f && can_write f
          then File {| can_read := can_read f; can_write := can_write f;
                       text := Some (apply_replacements table content) |}
          else nd
      | None => nd
      end
  end.

(** Whether a call on a path with that node returns true. *)
Definition reports_change (table : list (string * string)) (nd : option node) : bool :=
  match nd with
  | Some (File f) =>
      match text f with
      | Some content =>
          can_read f && can_write f &&
          negb (String.eqb (apply_replacements table content) content)
      | None => false
      end
  | _ => false
  end.

(** How often the loop body calls [update_file_content] on [file_path]. *)
Definition visits (paths : list string) (file_path : string) : nat :=
  length (filter (λ p, p = file_path ∧ candidate p = true) paths).

(** The number of events of a log that pass a test. *)
Fixpoint count (test : event → bool) (l : list event) : nat :=
  match l with
  | [] => 0
  | e :: l' => (if test e then 1 else 0) + count test l'
  end.

Definition is_open_read (e : event) : bool :=
  match e with OpenRead _ => true | _ => false end.

Definition is_open_write (e : event) : bool :=
  match e with OpenWrite _ => true | _ => false end.

Definition is_updated_line (e : event) : bool :=
  match e with Print (Updated _) => true | _ => false end.

Definition is_error_line (e : event) : bool :=
  match e with Print (ErrorUpdating _ _) => true | _ => false end.

(** The error a call on a path with that node catches, if any: the
    read fails, or the text changes and the write fails. *)
Definition failure (table : list (string * string)) (nd : option node) : option error :=
  match nd with
  | None => Some FileNotFoundError
  | Some Dir => Some IsADirectoryError
  | Some (File f) =>
      if can_read f then
        match text f with
        | None => Some UnicodeDecodeError
        | Some content =>
            if negb (String.eqb (apply_replacements table content) content) &&
               negb (can_write f)
            then Some PermissionError else None
        end
      else Some PermissionError
  end.

(** The paths a log opens for reading, in the order of the log. *)
Definition opened_for_reading (l : list event) : list string :=
  omap (λ e, match e with OpenRead file_path => Some file_path | _ => None end) l.

(** * Properties *)

(** ** Strings *)

Module StrFacts.
Import Str.

Lemma app_nil_l s : "" +:+ s = s.
Proof. reflexivity. Qed.

Lemma app_cons c s t : String c s +:+ t = String c (s +:+ t).
Proof. reflexivity. Qed.

Lemma app_nil_r s : s +:+ "" = s.
Proof. induction s as [|c s IH]; [done|]. by rewrite app_cons, IH. Qed.

Lemma app_assoc s t u : (s +:+ t) +:+ u = s +:+ t +:+ u.
Proof. induction s as [|c s IH]; [done|]. by rewrite !app_cons, IH. Qed.

Lemma length_app s t : String.length (s +:+ t) = String.length s + String.length t.
Proof. induction s as [|c s IH]; [done|]. rewrite app_cons. simpl. by rewrite IH. Qed.

Lemma app_eq_nil s t : s +:+ t = "" → s = "" ∧ t = "".
Proof. destruct s; [done|]. by rewrite app_cons. Qed.


Lemma drop_0 s : drop 0 s = s.
Proof. by destruct s. Qed.

Lemma drop_app s t : drop (String.length s) (s +:+ t) = t.
Proof. induction s as [|c s IH]; [apply drop_0|]. by rewrite app_cons. Qed.

Lemma length_drop n s : String.length (drop n s) = String.length s - n.
Proof.
  revert s. induction n as [|n IH]; intros [|c s]; simpl; try done.
Qed.

Lemma startswith_nil s : startswith s "" = true.
Proof. by destruct s. Qed.

Lemma startswith_app pre r : startswith (pre +:+ r) pre = true.
Proof.
  induction pre as [|a pre IH]; [apply startswith_nil|].
  rewrite app_cons. simpl. by rewrite Ascii.eqb_refl, IH.
Qed.

Lemma startswith_split s pre :
  startswith s pre = true → s = pre +:+ drop (String.length pre) s.
Proof.
  revert s. induction pre as [|a pre IH]; intros s H.
  - by rewrite drop_0.
  - destruct s as [|b s]; [done|]. simpl in H.
    apply andb_true_iff in H as [Hab H]. apply Ascii.eqb_eq in Hab as ->.
    rewrite app_cons. simpl. f_equal. by apply IH.
Qed.

Lemma startswith_spec s pre : startswith s pre = true ↔ ∃ r, s = pre +:+ r.
Proof.
  split.
  - intros H. eexists. by apply startswith_split.
  - intros [r ->]. apply startswith_app.
Qed.

Lemma contains_spec s sub : contains s sub = true ↔ occurs sub s.
Proof.
  unfold occurs. induction s as [|c s IH].
  - cbn [contains]. rewrite orb_false_r, startswith_spec. split.
    + intros [r Hr]. by exists "", r.
    + intros (u & v & H). symmetry in H.
      apply app_eq_nil in H as [-> H]. by exists v.
  - cbn [contains]. rewrite orb_true_iff, IH, startswith_spec. split.
    + intros [[r Hr] | (u & v & ->)].
      * by exists "", r.
      * by exists (String c u), v.
    + intros ([|a u] & v & H).
      * left. by exists v.
      * right. rewrite app_cons in H. injection H as -> ->. by exists u, v.
Qed.

Lemma not_contains_spec s sub : contains s sub = false ↔ ¬ occurs sub s.
Proof. rewrite <- contains_spec. by destruct (contains s sub). Qed.

Lemma occurs_nil s : occurs "" s.
Proof. by exists "", s. Qed.

Lemma occurs_in_nil sub : occurs sub "" → sub = "".
Proof.
  intros (u & v & H). symmetry in H.
  apply app_eq_nil in H as [_ H]. by apply app_eq_nil in H as [-> _].
Qed.

Lemma occurs_cons sub c s :
  occurs sub (String c s) ↔ startswith (String c s) sub = true ∨ occurs sub s.
Proof.
  rewrite <- !contains_spec. cbn [contains]. by rewrite orb_true_iff.
Qed.

Lemma occurs_app_r sub u s : occurs sub s → occurs sub (u +:+ s).
Proof.
  intros (x & y & ->). exists (u +:+ x), y. by rewrite app_assoc.
Qed.

(** *** [replace]: the equations of the scan *)

Lemma replace_scan_skip s old new k :
  replace_scan s old new k = replace_scan (drop k s) old new 0.
Proof.
  revert k. induction s as [|c s IH]; intros [|k]; simpl; try done.
Qed.

Lemma replace_nil old new : old ≠ "" → replace "" old new = "".
Proof. by destruct old. Qed.

Lemma replace_hit old new rest :
  old ≠ "" → replace (old +:+ rest) old new = new +:+ replace rest old new.
Proof.
  intros Hne. destruct old as [|a old]; [done|].
  unfold replace. rewrite app_cons.
  cbn [replace_scan]. rewrite <- (app_cons a old rest), startswith_app.
  f_equal. rewrite replace_scan_skip. f_equal.
  cbn [String.length]. replace (S (String.length old) - 1) with (String.length old) by lia.
  apply drop_app.
Qed.

Lemma replace_miss old new c s :
  startswith (String c s) old = false →
  replace (String c s) old new = String c (replace s old new).
Proof.
  intros H. destruct old as [|a old]; [done|].
  unfold replace. cbn [replace_scan]. by rewrite H.
Qed.

(** Induction along the scan. *)
Lemma replace_ind (old : string) (Hne : old ≠ "") (P : string → Prop) :
  P "" →
  (∀ rest, P rest → P (old +:+ rest)) →
  (∀ c s, startswith (String c s) old = false → P s → P (String c s)) →
  ∀ s, P s.
Proof.
  intros Hnil Hhit Hmiss s.
  remember (String.length s) as n eqn:Hn. revert s Hn.
  induction n as [n IH] using lt_wf_ind. intros s Hn.
  destruct s as [|c s]; [done|].
  destruct (startswith (String c s) old) eqn:Hp.
  - apply startswith_split in Hp. rewrite Hp. apply Hhit.
    eapply IH; [|done]. rewrite Hn, length_drop.
    destruct old; [done|]. simpl. lia.
  - apply Hmiss; [done|]. eapply IH; [|done]. simpl in Hn. lia.
Qed.

(** *** What [replace] leaves alone *)

Lemma interleave_nil s : interleave s "" = s.
Proof. induction s as [|c s IH]; [done|]. simpl. by rewrite app_nil_l, IH. Qed.

Lemma replace_absent s old new : ¬ occurs old s → replace s old new = s.
Proof.
  destruct (decide (old = "")) as [->|Hne].
  { intros []. apply occurs_nil. }
  induction s as [|rest IH|c s Hp IH] using (replace_ind old Hne); try done.
  - intros _. by apply replace_nil.
  - intros []. exists "", rest. by rewrite app_nil_l.
  - intros Hno. rewrite replace_miss by done. f_equal. apply IH.
    intros Ho. apply Hno, occurs_cons. by right.
Qed.

Lemma replace_same s old : replace s old old = s.
Proof.
  destruct (decide (old = "")) as [->|Hne].
  { apply interleave_nil. }
  induction s as [|rest IH|c s Hp IH] using (replace_ind old Hne); try done.
  - by apply replace_nil.
  - rewrite replace_hit by done. by rewrite IH.
  - rewrite replace_miss by done. by rewrite IH.
Qed.

End StrFacts.

(** ** The replacement loop *)


Lemma apply_replacements_app t1 t2 content :
  apply_replacements (t1 ++ t2) content = apply_replacements t2 (apply_replacements t1 content).
Proof.
  revert content. induction t1 as [|[old new] t1 IH]; intros content; [done|].
  simpl. apply IH.
Qed.

Lemma apply_replacements_identity table content :
  identity_table table → apply_replacements table content = content.
Proof.
  induction 1 as [|[old new] table Hid _ IH]; [done|].
  simpl in *. subst new. by rewrite StrFacts.replace_same.
Qed.

Lemma apply_replacements_key_free table content :
  key_free table content → apply_replacements table content = content.
Proof.
  induction table as [|[old new] table IH]; intros Hfree; [done|].
  simpl. rewrite StrFacts.replace_absent.
  - apply IH. intros o n Hin. apply (Hfree o n). by right.
  - apply (Hfree old new). by left.
Qed.

(** ** [update_file_content], case by case *)

Ltac run_io :=
  cbv [update_file_content try_except mbind M_bind IO_bind mret M_ret IO_ret
       read_text write_text lift print emit].

Lemma read_text_log file_path w :
  fs (read_text file_path w).2 = fs w ∧
  log (read_text file_path w).2 = log w ++ [OpenRead file_path].
Proof.
  unfold read_text. destruct (fs w !! file_path) as [[|f]|]; [done| |done].
  destruct (can_read f); [|done]. by destruct (text f).
Qed.

(** The read fails: the error is caught and printed, nothing is written. *)
Lemma update_read_error file_path table w e w1 :
  read_text file_path w = (Raise e, w1) →
  update_file_content file_path table w =
    (false, {| fs := fs w; log := log w ++ [OpenRead file_path; Print (ErrorUpdating file_path e)] |}).
Proof.
  intros Hr. pose proof (read_text_log file_path w) as [Hfs Hlog].
  rewrite Hr in Hfs, Hlog. simpl in Hfs, Hlog.
  unfold update_file_content, try_except, mbind, M_bind. rewrite Hr.
  cbv [mbind IO_bind print emit mret IO_ret]. simpl.
  by rewrite Hfs, Hlog, <- app_assoc.
Qed.

(** The read succeeds and the replacements change nothing: no write. *)
Lemma update_unchanged file_path table w f content :
  fs w !! file_path = Some (File f) → can_read f = true → text f = Some content →
  apply_replacements table content = content →
  update_file_content file_path table w =
    (false, {| fs := fs w; log := log w ++ [OpenRead file_path] |}).
Proof.
  intros Hf Hr Ht Hsame. run_io. rewrite Hf, Hr, Ht, Hsame.
  by rewrite String.eqb_refl.
Qed.

(** The read succeeds, the content changes and the file can be written. *)
Lemma update_changed file_path table w f content :
  fs w !! file_path = Some (File f) → can_read f = true → text f = Some content →
  can_write f = true →
  apply_replacements table content ≠ content →
  update_file_content file_path table w =
    (true,
     {| fs := <[file_path := File {| can_read := true; can_write := true;
                                      text := Some (apply_replacements table content) |}]> (fs w);
        log := log w ++ [OpenRead file_path; OpenWrite file_path; Print (Updated file_path)] |}).
Proof.
  intros Hf Hr Ht Hw Hne. run_io. rewrite Hf, Hr, Ht.
  apply String.eqb_neq in Hne. rewrite Hne. simpl.
  rewrite Hf, Hw, Hr. simpl. by rewrite <- !app_assoc.
Qed.

(** The read succeeds, the content changes and the file cannot be
    written: the error is caught and printed. *)
Lemma update_write_error file_path table w f content :
  fs w !! file_path = Some (File f) → can_read f = true → text f = Some content →
  can_write f = false →
  apply_replacements table content ≠ content →
  update_file_content file_path table w =
    (false,
     {| fs := fs w;
        log := log w ++ [OpenRead file_path; OpenWrite file_path;
                         Print (ErrorUpdating file_path PermissionError)] |}).
Proof.
  intros Hf Hr Ht Hw Hne. run_io. rewrite Hf, Hr, Ht.
  apply String.eqb_neq in Hne. rewrite Hne. simpl.
  rewrite Hf, Hw. simpl. by rewrite <- !app_assoc.
Qed.

Lemma updated_lines_app l1 l2 :
  updated_lines (l1 ++ l2) = updated_lines l1 + updated_lines l2.
Proof. induction l1 as [|[| |[]] l1 IH]; simpl; by rewrite ?IH. Qed.

(** What a call does to the world: it appends events about its own path
    only, among them an [Updated] line exactly when it returns true, and
    it leaves every other path alone. *)
Lemma update_file_content_effect file_path table w :
  let r := update_file_content file_path table w in
  ∃ evs, log r.2 = log w ++ evs ∧
         Forall (λ ev, event_path ev = Some file_path) evs ∧
         updated_lines evs = (if r.1 then 1 else 0) ∧
         ∀ q, q ≠ file_path → fs r.2 !! q = fs w !! q.
Proof.
  run_io. destruct (fs w !! file_path) as [[|f]|] eqn:Hf; simpl.
  1,3: eexists; rewrite <- app_assoc; split; [done|]; by repeat constructor.
  destruct (can_read f); [destruct (text f) as [content|]|]; simpl.
  2,3: eexists; rewrite <- app_assoc; split; [done|]; by repeat constructor.
  destruct (negb _); simpl.
  - rewrite Hf. destruct (can_write f); simpl.
    + eexists. rewrite <- !app_assoc. split; [done|].
      split; [by repeat constructor|]. split; [done|].
      intros q Hq. by rewrite lookup_insert_ne.
    + eexists. rewrite <- !app_assoc. split; [done|]. by repeat constructor.
  - eexists. split; [done|]. by repeat constructor.
Qed.

(** ** The loop body and the loops *)

Lemma visit_skipped table file_path c w :
  candidate file_path = false → visit table file_path c w = (c, w).
Proof.
  unfold candidate, visit. intros H.
  destruct (is_hidden file_path); [done|].
  destruct (is_build_artifact file_path); [done|]. done.
Qed.

Lemma visit_candidate table file_path c w :
  candidate file_path = true →
  visit table file_path c w =
    let r := update_file_content file_path table w in
    ({| updated_files := updated_files c + (if r.1 then 1 else 0);
        total_files := total_files c + 1 |}, r.2).
Proof.
  unfold candidate, visit. intros H.
  destruct (is_hidden file_path); [done|].
  destruct (is_build_artifact file_path); [done|].
  cbv [mbind IO_bind mret IO_ret].
  destruct (update_file_content file_path table w) as [[] w']; simpl; [done|].
  by rewrite Nat.add_0_r.
Qed.

Lemma for_each_app {A S} (xs ys : list A) (body : A → S → IO S) s w :
  for_each (xs ++ ys) body s w =
    let r := for_each xs body s w in for_each ys body r.1 r.2.
Proof.
  revert s w. induction xs as [|x xs IH]; intros s w; [done|].
  simpl. cbv [mbind IO_bind]. destruct (body x s w) as [s' w']. apply IH.
Qed.

(** The two nested loops visit the discovered paths in order. *)
Lemma nested_loops table patterns glob c w :
  for_each patterns (λ pattern c, for_each (glob pattern) (visit table) c) c w =
  for_each (discovered patterns glob) (visit table) c w.
Proof.
  unfold discovered. revert c w.
  induction patterns as [|pattern patterns IH]; intros c w; [done|].
  simpl. rewrite for_each_app. cbv [mbind IO_bind].
  destruct (for_each (glob pattern) (visit table) c w) as [c' w']. apply IH.
Qed.

Lemma main_with_unfold table patterns glob w :
  main_with table patterns glob w =
    let r := for_each (discovered patterns glob) (visit table)
               {| updated_files := 0; total_files := 0 |}
               {| fs := fs w; log := log w ++ [Print Starting] |} in
    (r.1, {| fs := fs r.2;
             log := log r.2 ++ [Print Completed;
                                Print (Summary (updated_files r.1) (total_files r.1));
                                Print Renamed] |}).
Proof.
  unfold main_with. cbv [mbind IO_bind mret IO_ret print emit].
  rewrite nested_loops.
  destruct (for_each _ _ _ _) as [c w']. simpl. by rewrite <- !app_assoc.
Qed.

(** An invariant of the loop body is an invariant of the loop. *)
Lemma for_each_visit_invariant (I : counters → world → Prop) table paths c w :
  (∀ file_path c w, I c w → I (visit table file_path c w).1 (visit table file_path c w).2) →
  I c w →
  I (for_each paths (visit table) c w).1 (for_each paths (visit table) c w).2.
Proof.
  intros Hbody. revert c w. induction paths as [|p paths IH]; intros c w HI; [done|].
  simpl. cbv [mbind IO_bind].
  specialize (Hbody p c w HI). destruct (visit table p c w) as [c' w']. by apply IH.
Qed.

(** ** [replace] is the literal substitution of the specification *)

Section Substitution.
Import Str StrFacts.
Variables old new : string.
Hypothesis old_nonempty : old ≠ "".








End Substitution.

(** ** The claims about [update_file_content] *)



(** The keys of the built-in table are distinct: the list is the
    [dict]. *)
Lemma replacements_keys_distinct : NoDup (replacements.*1).
Proof. apply (bool_decide_unpack (NoDup (replacements.*1))). by vm_compute. Qed.

Lemma replacements_identity : identity_table replacements.
Proof. unfold identity_table, replacements. repeat constructor. Qed.

(** C2: every pair of the built-in table is an identity pair; so for
    every file that decodes, applying the table gives back the content,
    [update_file_content] returns false, and the file is only opened for
    reading, never written. *)
Theorem C2_builtin_table_is_identity :
  identity_table replacements ∧
  ∀ file_path w f content,
    fs w !! file_path = Some (File f) → can_read f = true → text f = Some content →
    apply_replacements replacements content = content ∧
    update_file_content file_path replacements w =
      (false, {| fs := fs w; log := log w ++ [OpenRead file_path] |}).
Proof.
  split; [apply replacements_identity|].
  intros file_path w f content Hf Hr Ht.
  pose proof (apply_replacements_identity replacements content replacements_identity) as Hsame.
  split; [done|]. by eapply update_unchanged.
Qed.

Lemma C2_witness :
  update_file_content "README.md" replacements
    (boot {[ "README.md" := File {| can_read := true; can_write := true;
                                    text := Some "A3Mailer DAV Server" |} ]}) =
  (false,
   {| fs := {[ "README.md" := File {| can_read := true; can_write := true;
                                      text := Some "A3Mailer DAV Server" |} ]};
      log := [OpenRead "README.md"] |}).
Proof.
  destruct C2_builtin_table_is_identity as [_ H].
  eapply (H "README.md" (boot _)); [apply lookup_singleton_eq|reflexivity|reflexivity].
Defined.

(** C3: when applying all replacements gives back the content (in
    particular when no key of the table occurs in it), no write happens,
    the file system is unchanged, the result is false and the loop body
    counts the file in the total only. *)
Theorem C3_unchanged_content_is_not_written
    (table : list (string * string)) (file_path : string) (w : world) (f : file) (content : string) :
  fs w !! file_path = Some (File f) → can_read f = true → text f = Some content →
  (key_free table content → apply_replacements table content = content) ∧
  (apply_replacements table content = content →
   update_file_content file_path table w =
     (false, {| fs := fs w; log := log w ++ [OpenRead file_path] |}) ∧
   ∀ c, candidate file_path = true →
        visit table file_path c w =
          ({| updated_files := updated_files c; total_files := total_files c + 1 |},
           {| fs := fs w; log := log w ++ [OpenRead file_path] |})).
Proof.
  intros Hf Hr Ht. split; [apply apply_replacements_key_free|].
  intros Hsame.
  pose proof (update_unchanged file_path table w f content Hf Hr Ht Hsame) as Hu.
  split; [done|]. intros c Hc. rewrite visit_candidate by done. rewrite Hu. simpl.
  by rewrite Nat.add_0_r.
Qed.

Lemma C3_witness :
  visit [("a3mailer-server", "mailserver-core")] "docs/plain.txt"
    {| updated_files := 0; total_files := 0 |}
    (boot {[ "docs/plain.txt" := File {| can_read := true; can_write := false;
                                         text := Some "nothing to rename" |} ]}) =
  ({| updated_files := 0; total_files := 1 |},
   {| fs := {[ "docs/plain.txt" := File {| can_read := true; can_write := false;
                                           text := Some "nothing to rename" |} ]};
      log := [OpenRead "docs/plain.txt"] |}).
Proof.
  destruct (C3_unchanged_content_is_not_written
              [("a3mailer-server", "mailserver-core")] "docs/plain.txt"
              (boot {[ "docs/plain.txt" := File {| can_read := true; can_write := false;
                                                   text := Some "nothing to rename" |} ]})
              {| can_read := true; can_write := false; text := Some "nothing to rename" |}
              "nothing to rename"
              (lookup_singleton_eq _ _) eq_refl eq_refl) as [Hfree Hsame].
  apply Hsame; [|reflexivity].
  apply Hfree. intros old new Hin.
  apply elem_of_cons in Hin as [Hin|Hin]; [|by apply elem_of_nil in Hin].
  injection Hin as -> _. by apply StrFacts.not_contains_spec.
Defined.

(** C8: with the pair a3mailer-server -> mailserver-core in the table
    (every other pair an identity pair, as in the built-in table), a
    candidate file that reads "See a3mailer-server for details" is
    rewritten to "See mailserver-core for details", the call returns
    true, and the loop body adds exactly one to the updated counter. *)
Theorem C8_scenario_non_identity_pair
    (before after : list (string * string)) (file_path : string) (w : world) (f : file) (c : counters) :
  identity_table before → identity_table after →
  candidate file_path = true →
  fs w !! file_path = Some (File f) → can_read f = true → can_write f = true →
  text f = Some "See a3mailer-server for details" →
  let table := before ++ ("a3mailer-server", "mailserver-core") :: after in
  let w' := {| fs := <[file_path := File {| can_read := true; can_write := true;
                                            text := Some "See mailserver-core for details" |}]> (fs w);
               log := log w ++ [OpenRead file_path; OpenWrite file_path;
                                Print (Updated file_path)] |} in
  update_file_content file_path table w = (true, w') ∧
  visit table file_path c w =
    ({| updated_files := updated_files c + 1; total_files := total_files c + 1 |}, w').
Proof.
  intros Hb Ha Hc Hf Hr Hw Ht table w'.
  assert (Happly : apply_replacements table "See a3mailer-server for details" =
                   "See mailserver-core for details").
  { unfold table. rewrite apply_replacements_app.
    rewrite (apply_replacements_identity before) by done.
    cbn [apply_replacements].
    change (Str.replace "See a3mailer-server for details" "a3mailer-server" "mailserver-core")
      with "See mailserver-core for details".
    by apply apply_replacements_identity. }
  assert (Hu : update_file_content file_path table w = (true, w')).
  { rewrite (update_changed file_path table w f _ Hf Hr Ht Hw).
    - unfold w'. by rewrite Happly.
    - by rewrite Happly. }
  split; [done|]. rewrite visit_candidate by done. by rewrite Hu.
Qed.

Lemma C8_witness :
  update_file_content "notes.md" [("a3mailer-server", "mailserver-core")]
    (boot {[ "notes.md" := File {| can_read := true; can_write := true;
                                   text := Some "See a3mailer-server for details" |} ]}) =
  (true,
   {| fs := <["notes.md" := File {| can_read := true; can_write := true;
                                    text := Some "See mailserver-core for details" |}]>
              {[ "notes.md" := File {| can_read := true; can_write := true;
                                       text := Some "See a3mailer-server for details" |} ]};
      log := [OpenRead "notes.md"; OpenWrite "notes.md"; Print (Updated "notes.md")] |}).
Proof.
  eapply (C8_scenario_non_identity_pair [] [] "notes.md" (boot _) _
            {| updated_files := 0; total_files := 0 |}).
  - constructor.
  - constructor.
  - reflexivity.
  - apply lookup_singleton_eq.
  - reflexivity.
  - reflexivity.
  - reflexivity.
Defined.

(** ** What one pass of the loop does *)

Lemma visit_effect table file_path c w :
  let r := visit table file_path c w in
  ∃ evs, log r.2 = log w ++ evs ∧
         Forall (λ ev, event_path ev = Some file_path ∧ candidate file_path = true) evs ∧
         (∀ q, q ≠ file_path → fs r.2 !! q = fs w !! q) ∧
         total_files r.1 = total_files c + (if candidate file_path then 1 else 0) ∧
         updated_files r.1 = updated_files c + updated_lines evs.
Proof.
  destruct (candidate file_path) eqn:Hc.
  - rewrite visit_candidate by done.
    destruct (update_file_content_effect file_path table w) as (evs & Hlog & Hev & Hup & Hfs).
    exists evs. simpl. split; [done|]. split; [|by rewrite Hup].
    eapply Forall_impl; [done|]. by intros ev ->.
  - rewrite visit_skipped by done. exists []. simpl.
    rewrite app_nil_r. split; [done|]. split; [constructor|]. split; [done|]. lia.
Qed.

Lemma loop_effect table paths c w :
  let r := for_each paths (visit table) c w in
  ∃ evs, log r.2 = log w ++ evs ∧
         Forall (λ ev, ∃ p, event_path ev = Some p ∧ p ∈ paths ∧ candidate p = true) evs ∧
         (∀ q, q ∉ paths ∨ candidate q = false → fs r.2 !! q = fs w !! q) ∧
         total_files r.1 = total_files c + length (filter (λ p, candidate p = true) paths) ∧
         updated_files r.1 = updated_files c + updated_lines evs.
Proof.
  revert c w. induction paths as [|p paths IH]; intros c w.
  - exists []. simpl. rewrite app_nil_r. split; [done|]. split; [constructor|].
    split; [done|]. lia.
  - simpl. cbv [mbind IO_bind].
    destruct (visit_effect table p c w) as (evs1 & Hlog1 & Hev1 & Hfs1 & Htot1 & Hup1).
    pose proof (visit_skipped table p c w) as Hskip.
    destruct (visit table p c w) as [c1 w1]. simpl in *.
    destruct (IH c1 w1) as (evs2 & Hlog2 & Hev2 & Hfs2 & Htot2 & Hup2).
    exists (evs1 ++ evs2). split; [by rewrite Hlog2, Hlog1, app_assoc|].
    split; [|split; [|split]].
    + apply Forall_app. split.
      * eapply Forall_impl; [done|]. intros ev [? ?]. exists p. split; [done|].
        split; [by left|done].
      * eapply Forall_impl; [done|]. intros ev (q & ? & ? & ?). exists q.
        split; [done|]. split; [by right|done].
    + intros q Hq. rewrite Hfs2.
      * destruct (decide (q = p)) as [->|Hne]; [|by apply Hfs1].
        destruct Hq as [Hq|Hq]; [exfalso; apply Hq; by left|].
        specialize (Hskip Hq). by injection Hskip as _ ->.
      * destruct Hq as [Hq|Hq]; [left|by right]. intros Hin. apply Hq. by right.
    + rewrite Htot2, Htot1. rewrite filter_cons.
      destruct (candidate p); simpl; lia.
    + rewrite Hup2, Hup1, updated_lines_app. lia.
Qed.

(** The counters of the loop body: the updated counter never overtakes
    the total counter. *)
Lemma visit_counters table file_path c w :
  updated_files c ≤ total_files c →
  updated_files (visit table file_path c w).1 ≤ total_files (visit table file_path c w).1.
Proof.
  intros Hle. destruct (candidate file_path) eqn:Hc.
  - rewrite visit_candidate by done. simpl.
    destruct (update_file_content file_path table w).1; lia.
  - by rewrite visit_skipped.
Qed.

(** ** The whole run *)

Lemma for_each_counters table paths c w :
  updated_files c ≤ total_files c →
  updated_files (for_each paths (visit table) c w).1 ≤
  total_files (for_each paths (visit table) c w).1.
Proof.
  intros Hle.
  apply (for_each_visit_invariant (λ c _, updated_files c ≤ total_files c)); [|done].
  intros p c' w'. apply visit_counters.
Qed.

Lemma main_with_effect table patterns glob files :
  let paths := discovered patterns glob in
  let r := main_with table patterns glob (boot files) in
  ∃ evs,
    log r.2 = [Print Starting] ++ evs ++
              [Print Completed;
               Print (Summary (updated_files r.1) (total_files r.1));
               Print Renamed] ∧
    Forall (λ ev, ∃ p, event_path ev = Some p ∧ p ∈ paths ∧ candidate p = true) evs ∧
    (∀ q, q ∉ paths ∨ candidate q = false → fs r.2 !! q = files !! q) ∧
    total_files r.1 = length (filter (λ p, candidate p = true) paths) ∧
    updated_files r.1 = updated_lines evs ∧
    updated_files r.1 ≤ total_files r.1.
Proof.
  intros paths r. unfold r. rewrite main_with_unfold. simpl.
  set (c0 := {| updated_files := 0; total_files := 0 |}).
  set (w0 := {| fs := files; log := [Print Starting] |}).
  destruct (loop_effect table paths c0 w0) as (evs & Hlog & Hev & Hfs & Htot & Hup).
  pose proof (for_each_counters table paths c0 w0) as Hle.
  fold paths. destruct (for_each paths (visit table) c0 w0) as [c w]. simpl in *.
  exists evs. rewrite Hlog. split; [done|].
  repeat split; try done. apply Hle. lia.
Qed.

Lemma is_hidden_spec file_path :
  is_hidden file_path = true ↔
  ∃ part, part ∈ parts file_path ∧ Str.startswith part "." = true.
Proof.
  unfold is_hidden. rewrite existsb_exists.
  split; intros (part & Hin & Hdot); exists part; by rewrite list_elem_of_In in *.
Qed.

Lemma is_build_artifact_spec file_path :
  is_build_artifact file_path = true ↔
  ∃ skip, skip ∈ skip_list ∧ Str.occurs skip file_path.
Proof.
  unfold is_build_artifact. rewrite existsb_exists.
  split; intros (skip & Hin & Hocc); exists skip;
    by rewrite list_elem_of_In, StrFacts.contains_spec in *.
Qed.

Lemma not_candidate file_path :
  candidate file_path = false ↔
  is_hidden file_path = true ∨ is_build_artifact file_path = true.
Proof.
  unfold candidate.
  destruct (is_hidden file_path), (is_build_artifact file_path); simpl;
    split; try done; auto; by intros [|].
Qed.

(** C7: a discovered path with a part that starts with a dot, or that
    contains one of the reserved directory strings, is never opened for
    reading or writing during the run, keeps its node, and is not counted
    in the total: the total is the number of discovered paths that pass
    both tests. *)
Theorem C7_excluded_paths_are_never_opened
    (table : list (string * string)) (patterns : list string) (glob : string → list string)
    (files : gmap string node) (file_path : string) :
  (∃ part, part ∈ parts file_path ∧ Str.startswith part "." = true) ∨
  (∃ skip, skip ∈ skip_list ∧ Str.occurs skip file_path) →
  let r := main_with table patterns glob (boot files) in
  (OpenRead file_path ∉ log r.2) ∧
  (OpenWrite file_path ∉ log r.2) ∧
  fs r.2 !! file_path = files !! file_path ∧
  total_files r.1 =
    length (filter (λ p, candidate p = true ∧ p ≠ file_path) (discovered patterns glob)).
Proof.
  intros Hex r.
  assert (Hc : candidate file_path = false).
  { apply not_candidate. rewrite is_hidden_spec, is_build_artifact_spec. done. }
  destruct (main_with_effect table patterns glob files) as (evs & Hlog & Hev & Hfs & Htot & _).
  fold r in Hlog, Hfs, Htot.
  assert (Hno : ∀ ev, event_path ev = Some file_path → ev ∉ log r.2).
  { intros ev Hp. rewrite Hlog. rewrite !elem_of_app, !elem_of_cons, elem_of_nil.
    intros [[->| []]|[Hin|[->|[->|[->|[]]]]]]; try done.
    rewrite Forall_forall in Hev. destruct (Hev ev Hin) as (p & Hp' & _ & Hcp). congruence. }
  split; [by apply Hno|]. split; [by apply Hno|]. split; [apply Hfs; by right|].
  rewrite Htot. f_equal. apply list_filter_iff. intros p. split; [|by intros []].
  intros Hp. split; [done|]. congruence.
Qed.

Lemma C7_witness :
  let glob := λ pattern : string,
    if decide (pattern = "**/*.rs") then ["src/.cache/gen.rs"; "src/main.rs"] else [] in
  let r := main_with replacements file_patterns glob (boot ∅) in
  (OpenRead "src/.cache/gen.rs" ∉ log r.2) ∧
  (OpenWrite "src/.cache/gen.rs" ∉ log r.2) ∧
  fs r.2 !! "src/.cache/gen.rs" = (∅ : gmap string node) !! "src/.cache/gen.rs" ∧
  total_files r.1 =
    length (filter (λ p, candidate p = true ∧ p ≠ "src/.cache/gen.rs")
              (discovered file_patterns glob)).
Proof.
  intros glob.
  apply (C7_excluded_paths_are_never_opened replacements file_patterns glob ∅ "src/.cache/gen.rs").
  left. exists ".cache". split; [|reflexivity].
  vm_compute. apply list_elem_of_further, list_elem_of_here.
Defined.

(** C10: the reserved-directory test is substring containment on the
    whole path string. Every path that contains one of the four strings
    anywhere is skipped by the loop body (counters and world untouched),
    also a path such as [src/mytarget/lib.rs], none of whose parts is a
    reserved directory name. *)
Theorem C10_reserved_test_is_substring_containment
    (table : list (string * string)) (c : counters) (w : world) :
  (∀ file_path skip,
     skip ∈ skip_list → Str.occurs skip file_path →
     is_build_artifact file_path = true ∧ visit table file_path c w = (c, w)) ∧
  parts "src/mytarget/lib.rs" = ["src"; "mytarget"; "lib.rs"] ∧
  is_hidden "src/mytarget/lib.rs" = false ∧
  Str.contains "src/mytarget/lib.rs" "target/" = true ∧
  visit table "src/mytarget/lib.rs" c w = (c, w).
Proof.
  split; [|by repeat split].
  intros file_path skip Hin Hocc.
  assert (Hb : is_build_artifact file_path = true).
  { apply is_build_artifact_spec. by exists skip. }
  split; [done|]. apply visit_skipped, not_candidate. by right.
Qed.

Lemma C10_witness :
  is_build_artifact "docs/node_modules/readme.md" = true ∧
  visit replacements "docs/node_modules/readme.md"
    {| updated_files := 0; total_files := 0 |} (boot ∅) =
  ({| updated_files := 0; total_files := 0 |}, boot ∅).
Proof.
  apply (C10_reserved_test_is_substring_containment replacements
           {| updated_files := 0; total_files := 0 |} (boot ∅)) with (skip := "node_modules/").
  - apply list_elem_of_further, list_elem_of_here.
  - by exists "docs/", "readme.md".
Defined.

(** ** Files that cannot be read *)






(** ** The run, statement by statement *)

(** Between the increment of the total counter and the call, the updated
    counter is strictly below the total counter; elsewhere it is at most
    the total counter. *)
Lemma step_invariant table patterns glob k k' :
  step table patterns glob k = Some k' →
  (match at_pc k with
   | AtCall _ _ _ => updated_files (vars k) < total_files (vars k)
   | _ => updated_files (vars k) ≤ total_files (vars k)
   end) →
  match at_pc k' with
  | AtCall _ _ _ => updated_files (vars k') < total_files (vars k')
  | _ => updated_files (vars k') ≤ total_files (vars k')
  end.
Proof.
  destruct k as [p c w]. unfold step. simpl.
  destruct p as [|[|pattern patterns']|[|file_path paths] patterns'|file_path paths patterns'| |];
    try (intros [= <-]; simpl; lia).
  - destruct (is_hidden file_path); [intros [= <-]; simpl; lia|].
    destruct (is_build_artifact file_path); intros [= <-]; simpl; lia.
  - destruct (update_file_content file_path table w) as [[] w']; intros [= <-]; simpl; lia.
Qed.

Lemma exec_invariant table patterns glob n k :
  (match at_pc k with
   | AtCall _ _ _ => updated_files (vars k) < total_files (vars k)
   | _ => updated_files (vars k) ≤ total_files (vars k)
   end) →
  let k' := exec table patterns glob n k in
  match at_pc k' with
  | AtCall _ _ _ => updated_files (vars k') < total_files (vars k')
  | _ => updated_files (vars k') ≤ total_files (vars k')
  end.
Proof.
  revert k. induction n as [|n IH]; intros k Hinv; [done|].
  simpl. destruct (step table patterns glob k) as [k1|] eqn:Hstep; [|done].
  apply IH. by eapply step_invariant.
Qed.

Lemma exec_add table patterns glob n m k :
  exec table patterns glob (n + m) k =
  exec table patterns glob m (exec table patterns glob n k).
Proof.
  revert k. induction n as [|n IH]; intros k; [done|].
  simpl. destruct (step table patterns glob k) as [k1|] eqn:Hstep; [apply IH|].
  clear IH. induction m as [|m IHm]; [done|]. simpl. by rewrite Hstep.
Qed.

Lemma exec_step table patterns glob n k k' :
  step table patterns glob k = Some k' →
  exec table patterns glob (S n) k = exec table patterns glob n k'.
Proof. intros H. simpl. by rewrite H. Qed.

Lemma step_skip table patterns glob p paths rest c w :
  candidate p = false →
  step table patterns glob {| at_pc := AtFile (p :: paths) rest; vars := c; env := w |} =
    Some {| at_pc := AtFile paths rest; vars := c; env := w |}.
Proof.
  unfold candidate, step. simpl.
  destruct (is_hidden p); [done|]. by destruct (is_build_artifact p).
Qed.

Lemma step_count table patterns glob p paths rest c w :
  candidate p = true →
  step table patterns glob {| at_pc := AtFile (p :: paths) rest; vars := c; env := w |} =
    Some {| at_pc := AtCall p paths rest;
            vars := {| updated_files := updated_files c; total_files := total_files c + 1 |};
            env := w |}.
Proof.
  unfold candidate, step. simpl.
  destruct (is_hidden p); [done|]. by destruct (is_build_artifact p).
Qed.

(** The machine runs the inner loop as [for_each] does. *)
Lemma exec_files table patterns glob paths rest c w :
  ∃ n, exec table patterns glob n {| at_pc := AtFile paths rest; vars := c; env := w |} =
       {| at_pc := AtPattern rest;
          vars := (for_each paths (visit table) c w).1;
          env := (for_each paths (visit table) c w).2 |}.
Proof.
  revert c w. induction paths as [|p paths IH]; intros c w.
  - by exists 1.
  - cbn [for_each]. cbv [mbind IO_bind].
    destruct (candidate p) eqn:Hc.
    + rewrite visit_candidate by done.
      destruct (update_file_content p table w) as [changed w'] eqn:Hu. simpl.
      destruct (IH {| updated_files := updated_files c + (if changed then 1 else 0);
                      total_files := total_files c + 1 |} w') as [n Hn].
      exists (S (S n)).
      rewrite (exec_step _ _ _ _ _ _ (step_count table patterns glob p paths rest c w Hc)).
      erewrite exec_step; [exact Hn|].
      unfold step. simpl. rewrite Hu. destruct changed; simpl; [done|].
      by rewrite Nat.add_0_r.
    + rewrite visit_skipped by done. simpl.
      destruct (IH c w) as [n Hn]. exists (S n).
      by rewrite (exec_step _ _ _ _ _ _ (step_skip table patterns glob p paths rest c w Hc)).
Qed.

Lemma exec_patterns table patterns glob rest c w :
  let r := for_each rest (λ pattern c, for_each (glob pattern) (visit table) c) c w in
  ∃ n, exec table patterns glob n {| at_pc := AtPattern rest; vars := c; env := w |} =
       {| at_pc := AtSummary; vars := r.1; env := r.2 |}.
Proof.
  revert c w. induction rest as [|pattern rest IH]; intros c w.
  - by exists 1.
  - simpl. cbv [mbind IO_bind].
    destruct (exec_files table patterns glob (glob pattern) rest c w) as [n Hn].
    destruct (for_each (glob pattern) (visit table) c w) as [c1 w1]. simpl in Hn.
    destruct (IH c1 w1) as [m Hm].
    exists (S (n + m)). simpl. by rewrite exec_add, Hn.
Qed.

(** The machine stops in the configuration [main_with] returns. *)
Lemma exec_main table patterns glob files :
  let r := main_with table patterns glob (boot files) in
  ∃ n, exec table patterns glob n (start files) =
       {| at_pc := AtExit; vars := r.1; env := r.2 |}.
Proof.
  unfold main_with. cbv [mbind IO_bind mret IO_ret]. simpl.
  destruct (exec_patterns table patterns glob patterns
              {| updated_files := 0; total_files := 0 |}
              (print Starting (boot files)).2) as [n Hn].
  simpl in Hn. unfold print, emit in *. simpl in *.
  destruct (for_each patterns _ _ _) as [c w]. simpl in *.
  exists (S (n + 1)). simpl. rewrite exec_add, Hn. simpl.
  unfold print, emit. simpl. done.
Qed.

(** C9: at every point of the run the updated counter is at most the
    total counter, and strictly below it between the increment of the
    total counter and the end of the call that may increment the updated
    counter; the machine ends in the result of [main], whose summary
    line therefore prints an updated count at most the total count. *)
Theorem C9_updated_never_exceeds_total
    (table : list (string * string)) (patterns : list string) (glob : string → list string)
    (files : gmap string node) :
  (∀ n, let k := exec table patterns glob n (start files) in
        updated_files (vars k) ≤ total_files (vars k) ∧
        ∀ file_path paths rest,
          at_pc k = AtCall file_path paths rest →
          updated_files (vars k) < total_files (vars k)) ∧
  (∃ n, exec table patterns glob n (start files) =
        {| at_pc := AtExit;
           vars := (main_with table patterns glob (boot files)).1;
           env := (main_with table patterns glob (boot files)).2 |}) ∧
  (∀ u t, Print (Summary u t) ∈ log (main_with table patterns glob (boot files)).2 → u ≤ t).
Proof.
  split; [|split].
  - intros n k.
    pose proof (exec_invariant table patterns glob n (start files)) as Hinv.
    simpl in Hinv. fold k in Hinv. specialize (Hinv ltac:(lia)).
    split.
    + destruct (at_pc k); lia.
    + intros file_path paths rest Hpc. by rewrite Hpc in Hinv.
  - apply exec_main.
  - intros u t Hin.
    destruct (main_with_effect table patterns glob files) as (evs & Hlog & Hev & _ & _ & _ & Hle).
    rewrite Hlog in Hin. simpl in Hin.
    rewrite elem_of_cons, elem_of_app, !elem_of_cons, elem_of_nil in Hin.
    destruct Hin as [?|[Hin|[?|[Heq|[?|[]]]]]]; try done.
    + rewrite Forall_forall in Hev. by destruct (Hev _ Hin) as (p & ? & _).
    + by injection Heq as -> ->.
Qed.

Lemma C9_witness :
  let files : gmap string node :=
    {[ "x.md" := File {| can_read := true; can_write := true; text := Some "a" |};
       "y.md" := File {| can_read := true; can_write := true; text := Some "c" |} ]} in
  let glob := λ pattern : string,
    if decide (pattern = "**/*.md") then ["x.md"; "y.md"] else [] in
  Print (Summary 1 2) ∈ log (main_with [("a", "b")] file_patterns glob (boot files)).2 ∧
  1 ≤ 2.
Proof.
  intros files glob.
  assert (Hin : Print (Summary 1 2) ∈
                log (main_with [("a", "b")] file_patterns glob (boot files)).2).
  { vm_compute. do 6 apply list_elem_of_further. apply list_elem_of_here. }
  split; [exact Hin|].
  destruct (C9_updated_never_exceeds_total [("a", "b")] file_patterns glob files) as (_ & _ & H).
  exact (H 1 2 Hin).
Defined.

(** ** Running the tool twice *)

Lemma read_text_cases file_path w :
  (∃ f content, fs w !! file_path = Some (File f) ∧ can_read f = true ∧ text f = Some content) ∨
  (∃ e w1, read_text file_path w = (Raise e, w1)).
Proof.
  unfold read_text. destruct (fs w !! file_path) as [[|f]|]; [by right; eauto| |by right; eauto].
  destruct (can_read f) eqn:Hr; [|by right; eauto].
  destruct (text f) as [content|] eqn:Ht; [|by right; eauto].
  left. by exists f, content.
Qed.

(** A table that maps every content to itself never writes. *)
Lemma visit_no_change table file_path c w :
  (∀ content, apply_replacements table content = content) →
  fs (visit table file_path c w).2 = fs w ∧
  updated_files (visit table file_path c w).1 = updated_files c.
Proof.
  intros Hsame. destruct (candidate file_path) eqn:Hc.
  - rewrite visit_candidate by done.
    destruct (read_text_cases file_path w) as [(f & content & Hf & Hr & Ht)|(e & w1 & Hread)].
    + rewrite (update_unchanged file_path table w f content Hf Hr Ht (Hsame content)).
      simpl. split; [done|lia].
    + rewrite (update_read_error file_path table w e w1 Hread). simpl. split; [done|lia].
  - by rewrite visit_skipped.
Qed.

Lemma main_with_no_change table patterns glob w :
  (∀ content, apply_replacements table content = content) →
  fs (main_with table patterns glob w).2 = fs w ∧
  updated_files (main_with table patterns glob w).1 = 0.
Proof.
  intros Hsame. rewrite main_with_unfold. simpl.
  set (c0 := {| updated_files := 0; total_files := 0 |}).
  set (w0 := {| fs := fs w; log := log w ++ [Print Starting] |}).
  apply (for_each_visit_invariant
           (λ c w', fs w' = fs w ∧ updated_files c = 0) table (discovered patterns glob) c0 w0);
    [|done].
  intros p c w' [Hfs Hup].
  destruct (visit_no_change table p c w' Hsame) as [Hfs' Hup']. split; congruence.
Qed.

(** C6: running the tool twice leaves every file as one run leaves it,
    and the second run counts no file as updated. *)
Theorem C6_second_run_changes_nothing
    (glob glob' : string → list string) (files : gmap string node) :
  let once := main glob (boot files) in
  let twice := main glob' (boot (fs once.2)) in
  fs twice.2 = fs once.2 ∧ updated_files twice.1 = 0.
Proof.
  intros once twice. unfold twice, main.
  apply (main_with_no_change replacements file_patterns glob' (boot (fs once.2))).
  intros content. apply apply_replacements_identity, replacements_identity.
Qed.

(** ** Keys that are gone stay gone *)

Lemma app_split x a z b :
  x +:+ a = z +:+ b → String.length x ≤ String.length z →
  ∃ d, z = x +:+ d ∧ a = d +:+ b.
Proof.
  revert z. induction x as [|c x IH]; intros z H Hlen.
  - by exists z.
  - destruct z as [|c' z]; [simpl in Hlen; lia|].
    rewrite !StrFacts.app_cons in H. injection H as -> H.
    destruct (IH z H) as (d & -> & ->); [simpl in Hlen; lia|]. by exists d.
Qed.

Section Overlap.
Import Str StrFacts.
Variables old new : string.
Hypothesis old_nonempty : old ≠ "".

(** Inside an occurrence of [key] in the result, past its first
    character, no replacement took place. *)
Lemma startswith_replace_inside key s pre rest :
  apart key new → key = pre +:+ rest → pre ≠ "" →
  startswith (replace s old new) rest = true → startswith s rest = true.
Proof.
  intros Hapart. revert pre rest.
  induction s as [|s' _|c s Hmiss IH] using (replace_ind old old_nonempty);
    intros pre rest Hkey Hpre Hstart.
  - by rewrite replace_nil in Hstart.
  - destruct rest as [|r0 rest]; [apply startswith_nil|]. exfalso.
    rewrite replace_hit in Hstart by done.
    apply startswith_spec in Hstart as [y Hy].
    destruct (Hapart "" y pre (replace s' old new)) as [Hlen|Hlen].
    + by rewrite app_nil_l, Hkey, app_assoc, <- Hy.
    + destruct pre; [done|]. simpl in Hlen. lia.
    + rewrite Hkey, length_app in Hlen. simpl in Hlen. lia.
  - destruct rest as [|r0 rest]; [apply startswith_nil|].
    rewrite replace_miss in Hstart by done. simpl in Hstart |- *.
    apply andb_true_iff in Hstart as [-> Hstart]. simpl.
    apply (IH (pre +:+ String r0 "") rest); [|by destruct pre|done].
    by rewrite Hkey, app_assoc.
Qed.

(** An occurrence of [key] in [new +:+ r] lies in [r]. *)
Lemma occurs_after_new key r :
  apart key new → key ≠ "" → occurs key (new +:+ r) → occurs key r.
Proof.
  intros Hapart Hne (x & y & H).
  destruct (Hapart x y "" r) as [Hlen|Hlen]; [by rewrite app_nil_l| |].
  - simpl in Hlen. destruct (app_split new r x (key +:+ y) H Hlen) as (d & -> & ->).
    by exists d, y.
  - destruct key; [done|]. simpl in Hlen. lia.
Qed.

(** A replacement creates no occurrence of a key it does not overlap. *)
Lemma occurs_replace key s :
  apart key new → key ≠ "" → occurs key (replace s old new) → occurs key s.
Proof.
  intros Hapart Hne.
  induction s as [|s' IH|c s Hmiss IH] using (replace_ind old old_nonempty).
  - by rewrite replace_nil.
  - rewrite replace_hit by done. intros Hocc.
    by apply occurs_app_r, IH, occurs_after_new.
  - rewrite replace_miss by done. rewrite !occurs_cons.
    intros [Hstart|Hocc]; [left|right; by apply IH].
    destruct key as [|k0 key]; [done|]. simpl in Hstart |- *.
    apply andb_true_iff in Hstart as [-> Hstart]. simpl.
    by apply (startswith_replace_inside (String k0 key) s (String k0 "") key).
Qed.

(** A replacement removes every occurrence of its key. *)
Lemma replace_removes s : apart old new → ¬ occurs old (replace s old new).
Proof.
  intros Hapart.
  induction s as [|s' IH|c s Hmiss IH] using (replace_ind old old_nonempty).
  - rewrite replace_nil by done. by intros ?%occurs_in_nil.
  - rewrite replace_hit by done. intros Hocc. by apply IH, occurs_after_new.
  - rewrite replace_miss by done. rewrite occurs_cons.
    intros [Hstart|Hocc]; [|done].
    assert (∃ o0 old', old = String o0 old') as (o0 & old' & Hold).
    { destruct old as [|o0 old']; [done|]. by exists o0, old'. }
    rewrite Hold in Hmiss. rewrite Hold in Hstart at 2. cbn [startswith] in Hstart, Hmiss.
    apply andb_true_iff in Hstart as [H0 Hstart]. rewrite H0 in Hmiss. simpl in Hmiss.
    assert (startswith s old' = true); [|congruence].
    by apply (startswith_replace_inside old s (String o0 "") old').
Qed.
End Overlap.

(** The loop creates no occurrence of a key that overlaps none of its
    new-strings. *)
Lemma apply_replacements_occurs table key content :
  key ≠ "" →
  (∀ old new, (old, new) ∈ table → old ≠ "" ∧ apart key new) →
  Str.occurs key (apply_replacements table content) → Str.occurs key content.
Proof.
  intros Hne. revert content.
  induction table as [|[old new] table IH]; intros content Htable; [done|].
  simpl. intros Hocc.
  destruct (Htable old new) as [Hold Hapart]; [by left|].
  apply (occurs_replace old new Hold key content Hapart Hne).
  apply IH; [|done]. intros o n Hin. apply Htable. by right.
Qed.

Lemma apply_replacements_removes full table content :
  no_overlap full → table ⊆ full →
  key_free table (apply_replacements table content).
Proof.
  intros [Hne Hapart]. revert content.
  induction table as [|[old new] table IH]; intros content Hsub key new' Hin.
  { by apply elem_of_nil in Hin. }
  assert (Hhead : (old, new) ∈ full) by (apply Hsub; by left).
  assert (Htail : table ⊆ full) by (intros e He; apply Hsub; by right).
  simpl. apply elem_of_cons in Hin as [[= -> ->]|Hin].
  - intros Hocc. apply apply_replacements_occurs in Hocc.
    + by apply (replace_removes old new (Hne old new Hhead) content (Hapart _ _ _ _ Hhead Hhead)).
    + by apply (Hne old new).
    + intros o n Hon. split; [apply (Hne o n)|apply (Hapart o n old new)]; auto.
  - by apply (IH _ Htail key new').
Qed.

(** Under the stronger caveat the loop leaves no key behind, changes
    every content in which a key occurs, and changes nothing when run
    again. *)
Lemma apply_replacements_no_overlap table content :
  no_overlap table →
  key_free table (apply_replacements table content) ∧
  ((∃ old new, (old, new) ∈ table ∧ Str.occurs old content) →
   apply_replacements table content ≠ content) ∧
  apply_replacements table (apply_replacements table content) =
    apply_replacements table content.
Proof.
  intros Hno.
  assert (Hfree : key_free table (apply_replacements table content)).
  { by apply (apply_replacements_removes table table). }
  split; [done|]. split.
  - intros (old & new & Hin & Hocc) Heq. rewrite Heq in Hfree. by apply (Hfree old new).
  - by apply apply_replacements_key_free.
Qed.

(** ** The test for [apart] *)




Lemma no_overlap_no_key_in_new table : no_overlap table → no_key_in_new table.
Proof.
  intros [Hne Hapart] old new key new' Hin Hin' (u & v & Hocc).
  destruct (Hapart old new key new' Hin Hin' u v "" "") as [Hlen|Hlen].
  - by rewrite StrFacts.app_nil_l, StrFacts.app_nil_r.
  - rewrite Hocc, !StrFacts.length_app in Hlen. simpl in Hlen.
    pose proof (Hne key new' Hin'). destruct key; [done|]. simpl in Hlen. lia.
  - pose proof (Hne key new' Hin'). destruct key; [done|]. simpl in Hlen. lia.
Qed.

(** ** Files that contain a key *)

Section Rewritten.
Variable table : list (string * string).
Variable file_path : string.
Variable content : string.
Hypothesis table_no_overlap : no_overlap table.

Let rewritten : node :=
  File {| can_read := true; can_write := true;
          text := Some (apply_replacements table content) |}.

(** Once rewritten, the file stays as it is. *)
Lemma loop_stays_rewritten paths c w :
  fs w !! file_path = Some rewritten →
  fs (for_each paths (visit table) c w).2 !! file_path = Some rewritten.
Proof.
  apply (for_each_visit_invariant (λ _ w, fs w !! file_path = Some rewritten)).
  clear c w. intros q c w Hf.
  destruct (decide (q = file_path)) as [->|Hne].
  - destruct (candidate file_path) eqn:Hc; [|by rewrite visit_skipped].
    rewrite visit_candidate by done.
    erewrite update_unchanged; [done|exact Hf|done|done|].
    by apply apply_replacements_no_overlap.
  - destruct (visit_effect table q c w) as (_ & _ & _ & Hfs & _). by rewrite Hfs.
Qed.

Lemma visit_rewrites f c w :
  fs w !! file_path = Some (File f) → can_read f = true → can_write f = true →
  text f = Some content →
  candidate file_path = true →
  (∃ old new, (old, new) ∈ table ∧ Str.occurs old content) →
  visit table file_path c w =
    ({| updated_files := updated_files c + 1; total_files := total_files c + 1 |},
     {| fs := <[file_path := rewritten]> (fs w);
        log := log w ++ [OpenRead file_path; OpenWrite file_path;
                         Print (Updated file_path)] |}).
Proof.
  intros Hf Hr Hw Ht Hc Hkey. rewrite visit_candidate by done.
  rewrite (update_changed file_path table w f content Hf Hr Ht Hw); [done|].
  by apply apply_replacements_no_overlap.
Qed.

Lemma loop_rewrites f paths c w :
  fs w !! file_path = Some (File f) → can_read f = true → can_write f = true →
  text f = Some content →
  candidate file_path = true →
  (∃ old new, (old, new) ∈ table ∧ Str.occurs old content) →
  file_path ∈ paths →
  let r := for_each paths (visit table) c w in
  fs r.2 !! file_path = Some rewritten ∧
  ∃ evs, log r.2 = log w ++ evs ∧ Print (Updated file_path) ∈ evs.
Proof.
  intros Hf Hr Hw Ht Hc Hkey. revert c w Hf.
  induction paths as [|q paths IH]; intros c w Hf Hin; [by apply elem_of_nil in Hin|].
  simpl. cbv [mbind IO_bind].
  destruct (decide (q = file_path)) as [->|Hne].
  - rewrite (visit_rewrites f c w) by done.
    set (c1 := {| updated_files := _ |}). set (w1 := {| fs := _ |}).
    split.
    + apply loop_stays_rewritten. simpl. apply lookup_insert_eq.
    + destruct (loop_effect table paths c1 w1) as (evs & Hlog & _).
      exists ([OpenRead file_path; OpenWrite file_path; Print (Updated file_path)] ++ evs).
      split; [by rewrite Hlog, app_assoc|].
      do 2 apply list_elem_of_further. apply list_elem_of_here.
  - destruct (visit_effect table q c w) as (evs1 & Hlog1 & _ & Hfs1 & _).
    destruct (visit table q c w) as [c1 w1]. simpl in *.
    apply elem_of_cons in Hin as [?|Hin]; [done|].
    destruct (IH c1 w1) as (Hfs2 & evs2 & Hlog2 & Hup2); [by rewrite Hfs1|done|].
    split; [done|]. exists (evs1 ++ evs2).
    split; [by rewrite Hlog2, Hlog1, app_assoc|]. rewrite elem_of_app. by right.
Qed.

Lemma main_with_rewrites patterns glob files f :
  files !! file_path = Some (File f) → can_read f = true → can_write f = true →
  text f = Some content →
  candidate file_path = true → file_path ∈ discovered patterns glob →
  (∃ old new, (old, new) ∈ table ∧ Str.occurs old content) →
  let r := main_with table patterns glob (boot files) in
  fs r.2 !! file_path = Some rewritten ∧
  key_free table (apply_replacements table content) ∧
  Print (Updated file_path) ∈ log r.2 ∧
  updated_files r.1 = updated_lines (log r.2).
Proof.
  intros Hf Hr Hw Ht Hc Hin Hkey r.
  destruct (main_with_effect table patterns glob files) as (evs & Hlog & _ & _ & _ & Hup & _).
  fold r in Hlog, Hup.
  assert (Hcount : updated_files r.1 = updated_lines (log r.2)).
  { rewrite Hlog, Hup. simpl. rewrite updated_lines_app. simpl. lia. }
  split; [|split; [by apply apply_replacements_no_overlap|split; [|done]]].
  - unfold r. rewrite main_with_unfold. simpl.
    by apply (loop_rewrites f).
  - clear Hlog Hup Hcount. unfold r. rewrite main_with_unfold. simpl.
    destruct (loop_rewrites f (discovered patterns glob)
                {| updated_files := 0; total_files := 0 |}
                {| fs := files; log := [Print Starting] |}) as (_ & evs' & Hlog' & Hin');
      try done.
    rewrite Hlog'. rewrite !elem_of_app. left. by right.
Qed.
End Rewritten.

(** ** The claim about files that contain a key *)



Lemma keys_removed_and_counted_no_overlap : keys_removed_and_counted no_overlap.
Proof.
  intros table patterns glob files file_path f content Hno Hf Hr Hw Ht Hc Hin Hkey r.
  exists (apply_replacements table content).
  by apply (main_with_rewrites table file_path content Hno patterns glob files f).
Qed.


(** ** Path parts and path segments *)

(** A segment between slashes that starts with a dot and is not the
    single dot is one of the parts, so the path is hidden. *)
Lemma dot_segment_is_hidden file_path segment :
  segment ∈ Str.split file_path "/" →
  Str.startswith segment "." = true → segment ≠ "." →
  is_hidden file_path = true.
Proof.
  intros Hin Hdot Hne. apply is_hidden_spec. exists segment. split; [|done].
  assert (Hnames : segment ∈ filter (λ x, x ≠ "" ∧ x ≠ ".") (Str.split file_path "/")).
  { apply list_elem_of_filter. split; [|done]. split; [|done]. by intros ->. }
  unfold parts.
  destruct file_path as [|c0 [|c1 [|c2 rest]]]; try done;
    repeat case_match; try done; by apply list_elem_of_further.
Qed.

(** ** The model at work *)

Example replace_all_occurrences :
  Str.replace "See a3mailer-server for details" "a3mailer-server" "mailserver-core" =
  "See mailserver-core for details".
Proof. reflexivity. Qed.

Example replace_does_not_overlap : Str.replace "aaa" "aa" "b" = "ba".
Proof. reflexivity. Qed.

Example replace_is_literal : Str.replace "a.c abc" "a.c" "x" = "x abc".
Proof. reflexivity. Qed.

Example replace_empty_key : Str.replace "abc" "" "-" = "-a-b-c-".
Proof. reflexivity. Qed.

Example replace_makes_key_again : Str.replace "aabb" "ab" "" = "ab".
Proof. reflexivity. Qed.

Example replacement_order_matters :
  apply_replacements [("a", "b"); ("b", "c")] "ab" = "cc" ∧
  apply_replacements [("b", "c"); ("a", "b")] "ab" = "bc".
Proof. by split. Qed.

Example not_idempotent_in_general :
  apply_replacements [("a", "aa")] "a" = "aa" ∧
  apply_replacements [("a", "aa")] "aa" = "aaaa".
Proof. by split. Qed.

Example parts_examples :
  parts "src/.cache/gen.rs" = ["src"; ".cache"; "gen.rs"] ∧
  parts "/a/./b//c" = ["/"; "a"; "b"; "c"] ∧
  parts "./a.rs" = ["a.rs"] ∧
  parts "a/../b.rs" = ["a"; ".."; "b.rs"].
Proof. by repeat split. Qed.

Example hidden_and_reserved :
  is_hidden ".github/ci.yml" = true ∧
  is_hidden "a/../b.rs" = true ∧
  is_hidden "./a.rs" = false ∧
  is_build_artifact "target/debug/build.rs" = true ∧
  is_build_artifact "src/mytarget/lib.rs" = true ∧
  is_build_artifact "src/targets.rs" = false.
Proof. by repeat split. Qed.

Example read_only_file_keeps_its_key :
  update_file_content "notes.md" [("a3mailer-server", "mailserver-core")]
    (boot {[ "notes.md" := File {| can_read := true; can_write := false;
                                   text := Some "See a3mailer-server for details" |} ]}) =
  (false,
   {| fs := {[ "notes.md" := File {| can_read := true; can_write := false;
                                     text := Some "See a3mailer-server for details" |} ]};
      log := [OpenRead "notes.md"; OpenWrite "notes.md";
              Print (ErrorUpdating "notes.md" PermissionError)] |}).
Proof. reflexivity. Qed.

Example a_run :
  let files : gmap string node :=
    {[ "README.md" := File {| can_read := true; can_write := true;
                              text := Some "A3Mailer Mail Server" |};
       "bad.md" := File {| can_read := true; can_write := true; text := None |} ]} in
  let glob := λ pattern : string,
    if decide (pattern = "**/*.md") then ["README.md"; ".git/x.md"; "bad.md"] else [] in
  main glob (boot files) =
  ({| updated_files := 0; total_files := 2 |},
   {| fs := files;
      log := [Print Starting;
              OpenRead "README.md";
              OpenRead "bad.md"; Print (ErrorUpdating "bad.md" UnicodeDecodeError);
              Print Completed; Print (Summary 0 2); Print Renamed] |}).
Proof. reflexivity. Qed.

(** * More properties of the run *)

(** ** One call, seen from the node at its path *)

Lemma insert_as_alter (f : node → node) (m : gmap string node) p x :
  m !! p = Some x → <[p := f x]> m = alter f p m.
Proof.
  intros Hx. apply map_eq. intros q.
  rewrite lookup_insert, lookup_alter. case_decide; [|done]. by rewrite Hx.
Qed.

Lemma rewrite_node_unchanged table f content :
  text f = Some content → apply_replacements table content = content →
  rewrite_node table (File f) = File f.
Proof.
  intros Ht Hsame. unfold rewrite_node. rewrite Ht, Hsame.
  destruct f as [r wr t]. simpl in *. subst t. by destruct (r && wr).
Qed.

(** The call returns [reports_change] of the node and leaves the file
    system with [rewrite_node] applied at its path. *)
Lemma update_file_content_node file_path table w :
  (update_file_content file_path table w).1 = reports_change table (fs w !! file_path) ∧
  fs (update_file_content file_path table w).2 = alter (rewrite_node table) file_path (fs w).
Proof.
  destruct (fs w !! file_path) as [[|f]|] eqn:Hf.
  - rewrite (update_read_error file_path table w IsADirectoryError
               {| fs := fs w; log := log w ++ [OpenRead file_path] |}).
    + simpl. split; [done|]. symmetry. apply alter_id. intros x Hx; rewrite Hf in Hx; by injection Hx as <-.
    + unfold read_text. by rewrite Hf.
  - destruct (can_read f) eqn:Hr.
    + destruct (text f) as [content|] eqn:Ht.
      * destruct (decide (apply_replacements table content = content)) as [Hsame|Hdiff].
        -- erewrite update_unchanged by done. simpl. rewrite Ht, Hsame, String.eqb_refl.
           split; [by rewrite andb_false_r|]. symmetry. apply alter_id.
           intros x Hx; rewrite Hf in Hx; injection Hx as <-. by apply (rewrite_node_unchanged table f content).
        -- destruct (can_write f) eqn:Hw.
           ++ erewrite update_changed by done. simpl. rewrite Ht, Hr, Hw.
              apply String.eqb_neq in Hdiff. rewrite Hdiff. split; [done|].
              rewrite <- (insert_as_alter (rewrite_node table) (fs w) file_path (File f) Hf).
              simpl. by rewrite Ht, Hr, Hw.
           ++ erewrite update_write_error by done. simpl. rewrite Ht, Hr, Hw.
              split; [done|]. symmetry. apply alter_id. intros x Hx; rewrite Hf in Hx; injection Hx as <-.
              simpl. by rewrite Ht, Hr, Hw.
      * rewrite (update_read_error file_path table w UnicodeDecodeError
                   {| fs := fs w; log := log w ++ [OpenRead file_path] |}).
        -- simpl. rewrite Ht. split; [done|]. symmetry. apply alter_id.
           intros x Hx; rewrite Hf in Hx; injection Hx as <-. simpl. by rewrite Ht.
        -- unfold read_text. by rewrite Hf, Hr, Ht.
    + rewrite (update_read_error file_path table w PermissionError
                 {| fs := fs w; log := log w ++ [OpenRead file_path] |}).
      * simpl. rewrite Hr. split; [by destruct (text f)|]. symmetry. apply alter_id.
        intros x Hx; rewrite Hf in Hx; injection Hx as <-. simpl. rewrite Hr. by destruct (text f).
      * unfold read_text. by rewrite Hf, Hr.
  - rewrite (update_read_error file_path table w FileNotFoundError
               {| fs := fs w; log := log w ++ [OpenRead file_path] |}).
    + simpl. split; [done|]. symmetry. by apply alter_id'.
    + unfold read_text. by rewrite Hf.
Qed.

Lemma visit_node table file_path c w :
  candidate file_path = true →
  (visit table file_path c w).1 =
    {| updated_files := updated_files c +
                        (if reports_change table (fs w !! file_path) then 1 else 0);
       total_files := total_files c + 1 |} ∧
  fs (visit table file_path c w).2 = alter (rewrite_node table) file_path (fs w).
Proof.
  intros Hc. rewrite visit_candidate by done. simpl.
  destruct (update_file_content_node file_path table w) as [-> ->]. done.
Qed.

(** ** The file system after the run *)

Lemma visits_cons p paths q :
  visits (p :: paths) q =
    (if decide (p = q ∧ candidate p = true) then 1 else 0) + visits paths q.
Proof. unfold visits. rewrite filter_cons. by case_decide. Qed.

Lemma loop_node table paths c w q :
  fs (for_each paths (visit table) c w).2 !! q =
    Nat.iter (visits paths q) (rewrite_node table) <$> fs w !! q.
Proof.
  revert c w. induction paths as [|p paths IH]; intros c w.
  - simpl. by destruct (fs w !! q).
  - cbn [for_each]. cbv [mbind IO_bind]. rewrite visits_cons.
    destruct (candidate p) eqn:Hc.
    + destruct (visit_node table p c w Hc) as [_ Hfs].
      destruct (visit table p c w) as [c1 w1]. simpl in Hfs. rewrite IH, Hfs.
      rewrite lookup_alter. case_decide as Hpq.
      * subst q. rewrite decide_True by done.
        destruct (fs w !! p) as [nd|]; [|done]. simpl. by rewrite <- Nat.iter_succ_r.
      * rewrite decide_False by (by intros [? _]). done.
    + rewrite visit_skipped by done. rewrite IH.
      rewrite decide_False by (intros [_ ?]; congruence). done.
Qed.


Lemma rewrite_node_iter_fixed table nd n :
  rewrite_node table nd = nd → Nat.iter n (rewrite_node table) nd = nd.
Proof. intros H. induction n as [|n IH]; [done|]. simpl. by rewrite IH. Qed.

Lemma rewrite_node_iter_file table f n :
  ∃ f', Nat.iter n (rewrite_node table) (File f) = File f' ∧
        can_read f' = can_read f ∧ can_write f' = can_write f ∧
        (text f = None ↔ text f' = None).
Proof.
  induction n as [|n (f' & Hn & Hr & Hw & Ht)]; [by exists f|].
  simpl. rewrite Hn. unfold rewrite_node.
  destruct (text f') as [content|] eqn:Ht'.
  - destruct (can_read f' && can_write f') eqn:Hrw.
    + eexists. split; [done|]. simpl. rewrite Ht. by split; [|split].
    + exists f'. rewrite Ht, Ht'. by split; [|split].
  - exists f'. rewrite Ht, Ht'. by split; [|split].
Qed.

(** X2: what the run never does. It creates and deletes no path, leaves
    directories, unreadable, read-only and undecodable files exactly as
    they are, and changes no permission of any file. *)
Theorem run_preserves_the_tree
    (table : list (string * string)) (patterns : list string) (glob : string → list string)
    (files : gmap string node) :
  let after := fs (main_with table patterns glob (boot files)).2 in
  dom after = dom files ∧
  (∀ q, files !! q = Some Dir → after !! q = Some Dir) ∧
  (∀ q f, files !! q = Some (File f) →
     (can_read f = false ∨ can_write f = false ∨ text f = None) →
     after !! q = Some (File f)) ∧
  (∀ q f, files !! q = Some (File f) →
     ∃ f', after !! q = Some (File f') ∧
           can_read f' = can_read f ∧ can_write f' = can_write f).
Proof.
  intros after.
  assert (Hat : ∀ q, after !! q =
            Nat.iter (visits (discovered patterns glob) q) (rewrite_node table) <$> files !! q).
  { intros q. unfold after. rewrite main_with_unfold. simpl. by rewrite loop_node. }
  split; [|split; [|split]].
  - apply set_eq. intros q. rewrite !elem_of_dom, Hat.
    destruct (files !! q); simpl; split; intros [x Hx]; by eauto.
  - intros q Hq. rewrite Hat, Hq. simpl. f_equal. by apply rewrite_node_iter_fixed.
  - intros q f Hq Hno. rewrite Hat, Hq. simpl. f_equal. apply rewrite_node_iter_fixed.
    unfold rewrite_node. destruct (text f); [|done].
    destruct Hno as [->|[->|?]]; [done| |done]. by rewrite andb_false_r.
  - intros q f Hq. rewrite Hat, Hq. simpl.
    destruct (rewrite_node_iter_file table f (visits (discovered patterns glob) q))
      as (f' & -> & Hr & Hw & _).
    by exists f'.
Qed.

Lemma X2_witness :
  let files : gmap string node :=
    {[ "locked.md" := File {| can_read := true; can_write := false;
                              text := Some "a3mailer-server" |} ]} in
  let glob := λ pattern : string,
    if decide (pattern = "**/*.md") then ["locked.md"] else [] in
  fs (main_with [("a3mailer-server", "mailserver-core")] file_patterns glob (boot files)).2
    !! "locked.md" =
  Some (File {| can_read := true; can_write := false; text := Some "a3mailer-server" |}).
Proof.
  intros files glob.
  destruct (run_preserves_the_tree [("a3mailer-server", "mailserver-core")]
              file_patterns glob files) as (_ & _ & H & _).
  apply H; [apply lookup_singleton_eq|]. right. by left.
Defined.

(** ** The order of discovery *)

(** Counters and file system after a visit depend on the file system
    only, not on what has been logged. *)
Lemma visit_fs_only table p c w w' :
  fs w = fs w' →
  (visit table p c w).1 = (visit table p c w').1 ∧
  fs (visit table p c w).2 = fs (visit table p c w').2.
Proof.
  intros Hfs. destruct (candidate p) eqn:Hc.
  - destruct (visit_node table p c w Hc) as [-> ->].
    destruct (visit_node table p c w' Hc) as [-> ->]. by rewrite Hfs.
  - by rewrite !visit_skipped.
Qed.

Lemma for_each_cons {A S} (x : A) (xs : list A) (body : A → S → IO S) s w :
  for_each (x :: xs) body s w = for_each xs body (body x s w).1 (body x s w).2.
Proof. cbn [for_each]. cbv [mbind IO_bind]. by destruct (body x s w). Qed.

Lemma loop_fs_only table paths c w w' :
  fs w = fs w' →
  (for_each paths (visit table) c w).1 = (for_each paths (visit table) c w').1 ∧
  fs (for_each paths (visit table) c w).2 = fs (for_each paths (visit table) c w').2.
Proof.
  revert c w w'. induction paths as [|p paths IH]; intros c w w' Hfs; [done|].
  cbn [for_each]. cbv [mbind IO_bind].
  destruct (visit_fs_only table p c w w' Hfs) as [Hc Hw].
  destruct (visit table p c w) as [c1 w1], (visit table p c w') as [c1' w1'].
  simpl in Hc, Hw. subst c1'. by apply IH.
Qed.

Lemma alter_alter_swap (f : node → node) (m : gmap string node) x y :
  alter f y (alter f x m) = alter f x (alter f y m).
Proof.
  apply map_eq. intros q. rewrite !lookup_alter.
  repeat case_decide; subst; rewrite ?lookup_alter_eq, ?lookup_alter_ne by done; done.
Qed.

(** Two visits in a row can be swapped. *)
Lemma visit_visit_swap table x y c w :
  let r1 := visit table y (visit table x c w).1 (visit table x c w).2 in
  let r2 := visit table x (visit table y c w).1 (visit table y c w).2 in
  r1.1 = r2.1 ∧ fs r1.2 = fs r2.2.
Proof.
  destruct (decide (x = y)) as [->|Hne]; [done|].
  destruct (candidate x) eqn:Hx, (candidate y) eqn:Hy;
    rewrite ?(visit_skipped table x), ?(visit_skipped table y) by done; try done.
  intros r1 r2. unfold r1, r2.
  destruct (visit_node table x c w Hx) as [Hc1 Hw1].
  destruct (visit_node table y c w Hy) as [Hc2 Hw2].
  destruct (visit_node table y (visit table x c w).1 (visit table x c w).2 Hy) as [-> ->].
  destruct (visit_node table x (visit table y c w).1 (visit table y c w).2 Hx) as [-> ->].
  rewrite Hc1, Hc2, Hw1, Hw2. simpl.
  rewrite !lookup_alter_ne by done. split; [|apply alter_alter_swap].
  f_equal; lia.
Qed.

Lemma loop_permutation table paths paths' :
  paths ≡ₚ paths' →
  ∀ c w w', fs w = fs w' →
    (for_each paths (visit table) c w).1 = (for_each paths' (visit table) c w').1 ∧
    fs (for_each paths (visit table) c w).2 = fs (for_each paths' (visit table) c w').2.
Proof.
  induction 1 as [|p l l' _ IH|x y l|l1 l2 l3 _ IH1 _ IH2]; intros c w w' Hfs.
  - done.
  - cbn [for_each]. cbv [mbind IO_bind].
    destruct (visit_fs_only table p c w w' Hfs) as [Hc Hw].
    destruct (visit table p c w) as [c1 w1], (visit table p c w') as [c1' w1'].
    simpl in Hc, Hw. subst c1'. by apply IH.
  - rewrite !for_each_cons.
    destruct (visit_fs_only table y c w w' Hfs) as [Hc1 Hw1].
    destruct (visit_fs_only table x (visit table y c w).1 _ _ Hw1) as [Hc2 Hw2].
    destruct (visit_visit_swap table y x c w') as [Hc3 Hw3]. simpl in Hc3, Hw3.
    rewrite Hc1 in Hc2 at 2. rewrite Hc1 in Hw2 at 2.
    destruct (loop_fs_only table l
                (visit table x (visit table y c w).1 (visit table y c w).2).1
                (visit table x (visit table y c w).1 (visit table y c w).2).2
                (visit table y (visit table x c w').1 (visit table x c w').2).2) as [Hc4 Hw4].
    { congruence. }
    rewrite Hc4, Hw4. by rewrite Hc2, Hc3.
  - destruct (IH1 c w w' Hfs) as [-> ->]. by apply IH2.
Qed.

(** X3: the outcome does not depend on the order of discovery. Two runs
    over the same file system that discover the same paths equally
    often, in whatever order and under whatever patterns, return the
    same counters and leave the same file system. *)
Theorem run_is_order_independent
    (table : list (string * string)) (patterns patterns' : list string)
    (glob glob' : string → list string) (files : gmap string node) :
  discovered patterns glob ≡ₚ discovered patterns' glob' →
  (main_with table patterns glob (boot files)).1 =
    (main_with table patterns' glob' (boot files)).1 ∧
  fs (main_with table patterns glob (boot files)).2 =
    fs (main_with table patterns' glob' (boot files)).2.
Proof.
  intros Hperm. rewrite !main_with_unfold. simpl.
  by apply loop_permutation.
Qed.

Lemma X3_witness :
  let files : gmap string node :=
    {[ "a.md" := File {| can_read := true; can_write := true; text := Some "x" |};
       "b.md" := File {| can_read := true; can_write := true; text := Some "y" |} ]} in
  (main_with [("x", "y")] ["**/*.md"] (λ _, ["a.md"; "b.md"]) (boot files)).1 =
  (main_with [("x", "y")] ["**/*.md"] (λ _, ["b.md"; "a.md"]) (boot files)).1.
Proof.
  intros files.
  apply (run_is_order_independent [("x", "y")] ["**/*.md"] ["**/*.md"]
           (λ _, ["a.md"; "b.md"]) (λ _, ["b.md"; "a.md"]) files).
  simpl. apply perm_swap.
Defined.

(** ** A second run, for any table whose keys overlap no new-string *)


Section Settled.
Variable table : list (string * string).
Hypothesis fold_idempotent :
  ∀ content, apply_replacements table (apply_replacements table content) =
             apply_replacements table content.




End Settled.



(** ** The log and the counters *)

Lemma count_app test l1 l2 : count test (l1 ++ l2) = count test l1 + count test l2.
Proof. induction l1 as [|e l1 IH]; [done|]. simpl. rewrite IH. lia. Qed.

Lemma update_file_content_counts file_path table w :
  let r := update_file_content file_path table w in
  ∃ evs, log r.2 = log w ++ evs ∧
         count is_open_read evs = 1 ∧
         count is_updated_line evs = (if r.1 then 1 else 0) ∧
         count is_updated_line evs ≤ count is_open_write evs ∧
         count is_open_write evs ≤ count is_updated_line evs + count is_error_line evs ∧
         count is_updated_line evs + count is_error_line evs ≤ 1.
Proof.
  run_io. destruct (fs w !! file_path) as [[|f]|] eqn:Hf; simpl.
  1,3: eexists; rewrite <- app_assoc; split; [done|]; simpl; lia.
  destruct (can_read f); [destruct (text f) as [content|]|]; simpl.
  2,3: eexists; rewrite <- app_assoc; split; [done|]; simpl; lia.
  destruct (negb _); simpl.
  - rewrite Hf. destruct (can_write f); simpl;
      eexists; rewrite <- !app_assoc; (split; [done|]); simpl; lia.
  - eexists. split; [done|]. simpl. lia.
Qed.

(** X5: the log accounts for the counters. The total is the number of
    files opened for reading and the updated counter is the number of
    [Updated] lines; every [Updated] line has its own open for writing,
    every other open for writing has an error line, and the [Updated]
    and error lines together are at most the total. *)
Theorem log_accounts_for_the_counters
    (table : list (string * string)) (patterns : list string) (glob : string → list string)
    (files : gmap string node) :
  let r := main_with table patterns glob (boot files) in
  count is_open_read (log r.2) = total_files r.1 ∧
  count is_updated_line (log r.2) = updated_files r.1 ∧
  updated_files r.1 ≤ count is_open_write (log r.2) ∧
  count is_open_write (log r.2) ≤ updated_files r.1 + count is_error_line (log r.2) ∧
  updated_files r.1 + count is_error_line (log r.2) ≤ total_files r.1.
Proof.
  intros r. unfold r. rewrite main_with_unfold. simpl.
  set (c0 := {| updated_files := 0; total_files := 0 |}).
  set (w0 := {| fs := files; log := [Print Starting] |}).
  pose (I := λ (c : counters) (w : world),
          count is_open_read (log w) = total_files c ∧
          count is_updated_line (log w) = updated_files c ∧
          updated_files c ≤ count is_open_write (log w) ∧
          count is_open_write (log w) ≤ updated_files c + count is_error_line (log w) ∧
          updated_files c + count is_error_line (log w) ≤ total_files c).
  assert (Hloop : I (for_each (discovered patterns glob) (visit table) c0 w0).1
                    (for_each (discovered patterns glob) (visit table) c0 w0).2).
  { apply for_each_visit_invariant; [|unfold I; simpl; lia].
    intros p c w (H1 & H2 & H3 & H4 & H5).
    destruct (candidate p) eqn:Hc; [|by rewrite visit_skipped].
    rewrite visit_candidate by done.
    destruct (update_file_content_counts p table w) as (evs & Hlog & E1 & E2 & E3 & E4 & E5).
    unfold I. simpl. rewrite Hlog, !count_app.
    destruct (update_file_content p table w).1; lia. }
  destruct Hloop as (H1 & H2 & H3 & H4 & H5).
  rewrite !count_app. simpl. lia.
Qed.

(** ** The two exclusion tests *)

Lemma split_nonempty s sep : ∃ seg segs, Str.split s sep = seg :: segs.
Proof.
  destruct s as [|c s]; [by eexists _, _|]. simpl.
  destruct (Ascii.eqb c sep); [by eexists _, _|].
  destruct (Str.split s sep); by eexists _, _.
Qed.

Lemma split_app a b :
  Str.split (a +:+ String "/" b) "/" = Str.split a "/" ++ Str.split b "/".
Proof.
  induction a as [|c a IH]; [done|].
  rewrite StrFacts.app_cons. cbn [Str.split]. rewrite IH.
  destruct (Ascii.eqb c "/"); [done|].
  by destruct (split_nonempty a "/") as (seg & segs & ->).
Qed.

Lemma parts_names file_path part :
  part ∈ parts file_path →
  part = "/" ∨ part = "//" ∨
  part ∈ filter (λ x, x ≠ "" ∧ x ≠ ".") (Str.split file_path "/").
Proof.
  unfold parts.
  destruct file_path as [|c0 [|c1 [|c2 rest]]]; repeat case_match;
    rewrite ?elem_of_cons; tauto.
Qed.

Lemma hidden_dot_segment file_path :
  is_hidden file_path = true ↔
  ∃ segment, segment ∈ Str.split file_path "/" ∧
             Str.startswith segment "." = true ∧ segment ≠ ".".
Proof.
  split.
  - intros (part & Hin & Hdot)%is_hidden_spec.
    apply parts_names in Hin as [->|[->|Hin]]; [done..|].
    apply list_elem_of_filter in Hin as [[_ Hne] Hin]. by exists part.
  - intros (segment & Hin & Hdot & Hne). by apply (dot_segment_is_hidden _ segment).
Qed.


(** X7: an excluded directory covers everything below it. A path below
    a hidden directory, or with a hidden rest, is hidden; a path that
    contains a path with a reserved string contains it too. *)
Theorem exclusion_covers_the_subtree (dir rest : string) :
  is_hidden (dir +:+ "/" +:+ rest) = is_hidden dir || is_hidden rest ∧
  (∀ before after file_path,
     is_build_artifact file_path = true →
     is_build_artifact (before +:+ file_path +:+ after) = true) ∧
  (candidate dir = false → candidate (dir +:+ "/" +:+ rest) = false).
Proof.
  assert (Hhidden : is_hidden (dir +:+ "/" +:+ rest) = is_hidden dir || is_hidden rest).
  { apply eq_true_iff_eq. rewrite orb_true_iff, !hidden_dot_segment.
    change (dir +:+ "/" +:+ rest) with (dir +:+ String "/" rest). rewrite split_app.
    split.
    - intros (segment & Hin & H). apply elem_of_app in Hin as [Hin|Hin]; [left|right];
        by exists segment.
    - intros [(segment & Hin & H)|(segment & Hin & H)]; exists segment;
        (split; [|done]); apply elem_of_app; auto. }
  assert (Hreserved : ∀ before after file_path,
            is_build_artifact file_path = true →
            is_build_artifact (before +:+ file_path +:+ after) = true).
  { intros before after file_path (skip & Hin & u & v & ->)%is_build_artifact_spec.
    apply is_build_artifact_spec. exists skip. split; [done|].
    exists (before +:+ u), (v +:+ after). by rewrite !StrFacts.app_assoc. }
  split; [done|]. split; [done|].
  rewrite !not_candidate. intros [Hh|Hb].
  - left. by rewrite Hhidden, Hh.
  - right. apply (Hreserved "" ("/" +:+ rest) dir) in Hb. by rewrite StrFacts.app_nil_l in Hb.
Qed.

Lemma X7_witness :
  is_build_artifact ("vendor/" +:+ "target/debug" +:+ "/build.rs") = true ∧
  candidate (".github" +:+ "/" +:+ "workflows/ci.yml") = false.
Proof.
  destruct (exclusion_covers_the_subtree ".github" "workflows/ci.yml") as (_ & Hb & Hc).
  split; [by apply Hb|by apply Hc].
Defined.

(** ** When a single replacement changes the text *)

Section Changes.
Import Str StrFacts.

Lemma length_interleave s new :
  String.length (interleave s new) =
    String.length s + (String.length s + 1) * String.length new.
Proof.
  induction s as [|c s IH]; [simpl; lia|].
  simpl. rewrite length_app. simpl. rewrite IH. lia.
Qed.

Lemma length_replace old new s :
  old ≠ "" →
  (String.length new ≤ String.length old →
   String.length (replace s old new) ≤ String.length s) ∧
  (String.length old ≤ String.length new →
   String.length s ≤ String.length (replace s old new)).
Proof.
  intros Hne.
  induction s as [|rest [IH1 IH2]|c s Hmiss [IH1 IH2]] using (replace_ind old Hne).
  - by rewrite replace_nil.
  - rewrite replace_hit by done. rewrite !length_app. split; intros H; [specialize (IH1 H)|specialize (IH2 H)]; lia.
  - rewrite replace_miss by done. simpl. split; intros H; [specialize (IH1 H)|specialize (IH2 H)]; lia.
Qed.

Lemma replace_changes s old new :
  old ≠ new → occurs old s → replace s old new ≠ s.
Proof.
  intros Hdiff. destruct (decide (old = "")) as [->|Hne].
  { intros _ Heq. apply (f_equal String.length) in Heq.
    unfold replace in Heq. rewrite length_interleave in Heq.
    destruct new; [done|]. simpl in Heq. lia. }
  induction s as [|rest _|c s Hmiss IH] using (replace_ind old Hne).
  - by intros ->%occurs_in_nil.
  - intros _ Heq. rewrite replace_hit in Heq by done.
    destruct (length_replace old new rest Hne) as [Hle Hge].
    pose proof (f_equal String.length Heq) as Hlen. rewrite !length_app in Hlen.
    destruct (decide (String.length new ≤ String.length old)) as [H1|H1].
    + destruct (app_split new (replace rest old new) old rest Heq H1) as (d & -> & _).
      rewrite length_app in *. specialize (Hle H1).
      destruct d; [by rewrite app_nil_r in Hdiff|]. simpl in *. lia.
    + specialize (Hge ltac:(lia)). lia.
  - rewrite replace_miss by done. rewrite occurs_cons.
    intros [?|Hocc] [= Heq]; [congruence|]. by apply IH.
Qed.

Lemma replace_fixed_iff s old new :
  replace s old new = s ↔ (¬ occurs old s ∨ old = new).
Proof.
  split.
  - intros Heq. destruct (decide (old = new)) as [?|Hdiff]; [by right|].
    left. intros Hocc. by apply (replace_changes s old new).
  - intros [?| ->]; [by apply replace_absent|apply replace_same].
Qed.
End Changes.

(** X8: a table of one pair. On a file that can be read and written the
    call returns true exactly when the key occurs in the content and the
    new-string differs from the key. *)
Theorem single_pair_updates_files_with_the_key
    (old new file_path : string) (w : world) (f : file) (content : string) :
  fs w !! file_path = Some (File f) → can_read f = true → can_write f = true →
  text f = Some content →
  (update_file_content file_path [(old, new)] w).1 = true ↔
  (Str.occurs old content ∧ old ≠ new).
Proof.
  intros Hf Hr Hw Ht.
  destruct (update_file_content_node file_path [(old, new)] w) as [-> _].
  rewrite Hf. simpl. rewrite Ht, Hr, Hw. simpl.
  rewrite negb_true_iff, String.eqb_neq, replace_fixed_iff.
  split.
  - intros Hno. split.
    + destruct (Str.contains content old) eqn:Hc; [by apply StrFacts.contains_spec|].
      exfalso. apply Hno. left. by apply StrFacts.not_contains_spec.
    + intros ->. apply Hno. by right.
  - intros [Hocc Hdiff] [?|?]; done.
Qed.

Lemma X8_witness :
  (update_file_content "notes.md" [("a3mailer-server", "mailserver-core")]
     (boot {[ "notes.md" := File {| can_read := true; can_write := true;
                                    text := Some "See a3mailer-server for details" |} ]})).1 = true.
Proof.
  eapply (single_pair_updates_files_with_the_key
            "a3mailer-server" "mailserver-core" "notes.md" (boot _)
            {| can_read := true; can_write := true;
               text := Some "See a3mailer-server for details" |}).
  - apply lookup_singleton_eq.
  - reflexivity.
  - reflexivity.
  - reflexivity.
  - split; [by exists "See ", " for details"|done].
Defined.

(** ** Which files get an [Updated] line *)







(** ** Two passes with two tables *)






(** ** Which files get an error line *)

Lemma update_file_content_error_line file_path table w :
  ∃ evs, log (update_file_content file_path table w).2 = log w ++ evs ∧
         ∀ p e, Print (ErrorUpdating p e) ∈ evs ↔
                p = file_path ∧ failure table (fs w !! file_path) = Some e.
Proof.
  run_io. destruct (fs w !! file_path) as [[|f]|] eqn:Hf; simpl.
  1,3: eexists; rewrite <- app_assoc; (split; [done|]); intros p e; simpl;
       rewrite !elem_of_cons, elem_of_nil; split;
       [intros [?|[[= -> ->]|[]]]; done | intros [-> [= <-]]; tauto].
  destruct (can_read f); [destruct (text f) as [content|]|]; simpl.
  2,3: eexists; rewrite <- app_assoc; (split; [done|]); intros p e; simpl;
       rewrite !elem_of_cons, elem_of_nil; split;
       [intros [?|[[= -> ->]|[]]]; done | intros [-> [= <-]]; tauto].
  destruct (negb _); simpl.
  - rewrite Hf. destruct (can_write f); simpl.
    + eexists. rewrite <- !app_assoc. split; [done|]. intros p e. simpl.
      rewrite !elem_of_cons, elem_of_nil. split; [|by intros [_ ?]].
      intros [?|[?|[?|[]]]]; done.
    + eexists. rewrite <- !app_assoc. split; [done|]. intros p e. simpl.
      rewrite !elem_of_cons, elem_of_nil. split.
      * intros [?|[?|[[= -> ->]|[]]]]; done.
      * intros [-> [= <-]]. tauto.
  - eexists. split; [done|]. intros p e. simpl.
    rewrite !elem_of_cons, elem_of_nil. split; [|by intros [_ ?]].
    intros [?|[]]; done.
Qed.

(** A call fails on a file after a call only if it failed on it before:
    a file on which a call fails is left as it is, and on a file that a
    call rewrote no call fails. *)
Lemma failure_rewrite table nd e :
  failure table (rewrite_node table <$> nd) = Some e → failure table nd = Some e.
Proof.
  destruct nd as [[|[r wr [content|]]]|]; simpl; try done.
  destruct r, wr; simpl; try done.
  by rewrite andb_false_r.
Qed.

Lemma visit_error_iff table q c w p e :
  ∃ evs, log (visit table q c w).2 = log w ++ evs ∧
         (Print (ErrorUpdating p e) ∈ evs ↔
          p = q ∧ candidate q = true ∧ failure table (fs w !! q) = Some e).
Proof.
  destruct (candidate q) eqn:Hc.
  - rewrite visit_candidate by done. simpl.
    destruct (update_file_content_error_line q table w) as (evs & Hlog & Hiff).
    exists evs. split; [done|]. rewrite Hiff. tauto.
  - rewrite visit_skipped by done. exists []. rewrite app_nil_r. split; [done|].
    split; [by intros ?%elem_of_nil|]. by intros (_ & ? & _).
Qed.

Lemma loop_error_iff table p e paths c w :
  ∃ evs, log (for_each paths (visit table) c w).2 = log w ++ evs ∧
         (Print (ErrorUpdating p e) ∈ evs ↔
          p ∈ paths ∧ candidate p = true ∧ failure table (fs w !! p) = Some e).
Proof.
  revert c w. induction paths as [|q paths IH]; intros c w.
  - exists []. simpl. rewrite app_nil_r. split; [done|].
    split; [by intros ?%elem_of_nil|]. by intros [?%elem_of_nil _].
  - rewrite for_each_cons.
    destruct (visit_error_iff table q c w p e) as (evs1 & Hlog1 & Hiff1).
    assert (Hfs : fs (visit table q c w).2 !! p =
                  if decide (q = p ∧ candidate q = true)
                  then rewrite_node table <$> fs w !! p else fs w !! p).
    { destruct (candidate q) eqn:Hc.
      - destruct (visit_node table q c w Hc) as [_ ->]. rewrite lookup_alter.
        case_decide; subst; [by rewrite decide_True|]. by rewrite decide_False by tauto.
      - rewrite visit_skipped by done. by rewrite decide_False by (intros [_ ?]; congruence). }
    destruct (IH (visit table q c w).1 (visit table q c w).2) as (evs2 & Hlog2 & Hiff2).
    exists (evs1 ++ evs2). split; [by rewrite Hlog2, Hlog1, app_assoc|].
    rewrite elem_of_app, Hiff1, Hiff2, Hfs, elem_of_cons. split.
    + intros [(-> & Hc & Hfail)|(Hin & Hc & Hfail)]; [tauto|].
      split; [tauto|]. split; [done|].
      case_decide; [by apply failure_rewrite|done].
    + intros ([->|Hin] & Hc & Hfail); [tauto|].
      destruct (decide (p = q)) as [->|Hne]; [tauto|].
      right. rewrite decide_False by (intros [? _]; congruence). tauto.
Qed.

(** X11: the error lines are exact. The run prints an error line with
    an error for a path exactly when the path is discovered, passes both
    tests, and a call on the node the path has at the start catches that
    error: the path is missing, a directory, unreadable or undecodable,
    or its text changes and it cannot be written. *)
Theorem error_lines_are_exact
    (table : list (string * string)) (patterns : list string) (glob : string → list string)
    (files : gmap string node) (file_path : string) (e : error) :
  Print (ErrorUpdating file_path e) ∈ log (main_with table patterns glob (boot files)).2 ↔
  file_path ∈ discovered patterns glob ∧ candidate file_path = true ∧
  failure table (files !! file_path) = Some e.
Proof.
  rewrite main_with_unfold. simpl.
  destruct (loop_error_iff table file_path e (discovered patterns glob)
              {| updated_files := 0; total_files := 0 |}
              {| fs := files; log := [Print Starting] |}) as (evs & -> & <-).
  simpl. rewrite elem_of_cons, !elem_of_app, !elem_of_cons, elem_of_nil.
  split; [|tauto]. intros [?|[?|[?|[?|[?|[]]]]]]; done.
Qed.

(** ** The numbers of the summary *)





(** ** The files the run reads *)

Lemma update_file_content_reads file_path table w :
  ∃ evs, log (update_file_content file_path table w).2 = log w ++ evs ∧
         opened_for_reading evs = [file_path].
Proof.
  run_io. destruct (fs w !! file_path) as [[|f]|] eqn:Hf; simpl.
  1,3: eexists; rewrite <- app_assoc; by split.
  destruct (can_read f); [destruct (text f) as [content|]|]; simpl.
  2,3: eexists; rewrite <- app_assoc; by split.
  destruct (negb _); simpl.
  - rewrite Hf. destruct (can_write f); simpl; eexists; rewrite <- !app_assoc; by split.
  - eexists. by split.
Qed.

(** X13: the run opens for reading exactly the discovered paths that
    pass both tests, once for each time they are discovered and in the
    order of discovery. *)
Theorem reads_follow_discovery
    (table : list (string * string)) (patterns : list string) (glob : string → list string)
    (files : gmap string node) :
  opened_for_reading (log (main_with table patterns glob (boot files)).2) =
    filter (λ p, candidate p = true) (discovered patterns glob).
Proof.
  rewrite main_with_unfold. simpl.
  set (c0 := {| updated_files := 0; total_files := 0 |}).
  set (w0 := {| fs := files; log := [Print Starting] |}).
  assert (Hloop : ∀ paths c w,
            opened_for_reading (log (for_each paths (visit table) c w).2) =
            opened_for_reading (log w) ++ filter (λ p, candidate p = true) paths).
  { induction paths as [|p paths IH]; intros c w; [simpl; by rewrite app_nil_r|].
    rewrite for_each_cons, IH, filter_cons.
    destruct (candidate p) eqn:Hc.
    - rewrite visit_candidate by done. simpl.
      destruct (update_file_content_reads p table w) as (evs & -> & Hevs).
      unfold opened_for_reading in *. rewrite omap_app, Hevs, <- app_assoc. done.
    - rewrite visit_skipped by done. done. }
  unfold opened_for_reading in *. rewrite omap_app, Hloop. simpl. by rewrite app_nil_r.
Qed.

(** ** The tool as shipped *)

Lemma visit_never_writes table q c w :
  (∀ content, apply_replacements table content = content) →
  (∀ p, OpenWrite p ∉ log w) →
  ∀ p, OpenWrite p ∉ log (visit table q c w).2.
Proof.
  intros Hsame Hw p. destruct (candidate q) eqn:Hc; [|by rewrite visit_skipped].
  rewrite visit_candidate by done. simpl.
  destruct (read_text_cases q w) as [(f & content & Hf & Hr & Ht)|(e & w1 & Hread)].
  - rewrite (update_unchanged q table w f content Hf Hr Ht (Hsame content)). simpl.
    rewrite elem_of_app, elem_of_cons, elem_of_nil. intros [?|[?|[]]]; [by eapply Hw|done].
  - rewrite (update_read_error q table w e w1 Hread). simpl.
    rewrite elem_of_app, !elem_of_cons, elem_of_nil.
    intros [?|[?|[?|[]]]]; [by eapply Hw|done..].
Qed.

(** X14: the tool as shipped only reads. With its built-in table [main]
    never opens a file for writing, whatever is discovered and whatever
    the files hold; it leaves the file system as it is and its summary
    reports no updated file. *)
Theorem main_never_writes (glob : string → list string) (files : gmap string node) :
  let r := main glob (boot files) in
  (∀ file_path, OpenWrite file_path ∉ log r.2) ∧
  fs r.2 = files ∧
  updated_files r.1 = 0 ∧
  Print (Summary 0 (total_files r.1)) ∈ log r.2.
Proof.
  intros r.
  assert (Hsame : ∀ content, apply_replacements replacements content = content).
  { intros content. apply apply_replacements_identity, replacements_identity. }
  destruct (main_with_no_change replacements file_patterns glob (boot files) Hsame) as [Hfs Hup].
  fold (main glob (boot files)) in Hfs, Hup. fold r in Hfs, Hup.
  destruct (main_with_effect replacements file_patterns glob files) as (evs & Hlog & _).
  fold (main glob (boot files)) in Hlog. fold r in Hlog.
  split; [|split; [done|split; [done|]]].
  - intros p. unfold r, main. rewrite main_with_unfold. simpl.
    rewrite elem_of_app, !elem_of_cons, elem_of_nil.
    intros [Hin|[?|[?|[?|[]]]]]; try done. revert Hin.
    apply (for_each_visit_invariant (λ _ w, ∀ p, OpenWrite p ∉ log w)).
    + intros q c w Hw. by apply visit_never_writes.
    + intros p'. simpl. rewrite elem_of_cons, elem_of_nil. by intros [?|[]].
  - rewrite Hlog, Hup. apply elem_of_app. right. apply elem_of_app. right.
    apply list_elem_of_further, list_elem_of_here.
Qed.


Lemma X11_witness :
  let files : gmap string node :=
    {[ "a.md" := File {| can_read := true; can_write := false; text := Some "old" |} ]} in
  let glob := λ pattern : string, if decide (pattern = "**/*.md") then ["a.md"] else [] in
  Print (ErrorUpdating "a.md" PermissionError) ∈
    log (main_with [("old", "new")] file_patterns glob (boot files)).2.
Proof.
  intros files glob.
  apply (error_lines_are_exact [("old", "new")] file_patterns glob files "a.md" PermissionError).
  split; [vm_compute; apply list_elem_of_here|]. split; reflexivity.
Defined.
